(** * Sliding-window rate limiter (task1.py)

    A shallow embedding of [SlidingWindowRateLimiter] and proofs about its
    admission check, bookkeeping and wait-time computation.

    Modelling choices.
    - Timestamps ([time.time()] results, Python floats) are rationals [Q],
      the exact values of the floats; comparisons are exact as in the
      source.  The arithmetic of the wait returned by
      [time_until_next_allowed] is binary64 arithmetic: [float_add] and
      [float_sub] round the exact result to the nearest binary64 number,
      ties to even.  The bound [current_time - window_size] of the cleanup
      loop is kept exact: with timestamps that are not negative and a
      positive window below 2^53 the binary64 difference is either exact
      or negative, and so decides the loop's test alike.  Overflow to
      infinity is not modelled.
    - [window_size] and [max_requests] are Python ints: [Z].
    - [user_history : Dict[str, deque]] is a [gmap string (list time)]; a
      deque is a list, oldest entry first, [popleft] removes the head and
      [append] adds at the end.
    - [time.time()] is an oracle: the n-th call made by the program returns
      [clock n].  The world carries the number of calls made so far, so the
      number of clock reads of an operation is observable.
    - Methods run in a state-and-exception monad over the world.
    - The driver [test_rate_limiter] is modelled by the calls it makes and
      the values it prints; the text of its lines, and its sleeps, whose
      only effect is on later clock readings, are not. *)

From Stdlib Require Import QArith Qminmax Lqa.
From stdpp Require Import gmap strings list fin_maps sorting pretty.

Local Open Scope Z_scope.

(** ** Data *)

(** Seconds since the epoch. *)
Abbreviation time := Q (only parsing).

Inductive exn : Type := KeyError | IndexError.

Inductive result (A : Type) : Type :=
| Ok (a : A)
| Raise (e : exn).
Arguments Ok {A} a.
Arguments Raise {A} e.

Record SlidingWindowRateLimiter : Type := mkLimiter {
  window_size : Z;
  max_requests : Z;
  user_history : gmap string (list time)
}.

(** The limiter object together with the number of clock reads so far. *)
Record World : Type := mkWorld {
  self : SlidingWindowRateLimiter;
  reads : nat
}.

(** [SlidingWindowRateLimiter.__init__]: stores both arguments as they are
    and starts with an empty dict.  There is no [raise] in its body. *)
Definition __init__ (window_size max_requests : Z)
  : result SlidingWindowRateLimiter :=
  Ok (mkLimiter window_size max_requests ∅).

(** ** The monad *)

Definition M (A : Type) : Type := World → result A * World.

#[global] Instance M_ret : MRet M := λ A a w, (Ok a, w).

#[global] Instance M_bind : MBind M := λ A B f m w,
  match m w with
  | (Ok a, w') => f a w'
  | (Raise e, w') => (Raise e, w')
  end.

Definition raise {A} (e : exn) : M A := λ w, (Raise e, w).

Definition get_window_size : M Z := λ w, (Ok (window_size (self w)), w).
Definition get_max_requests : M Z := λ w, (Ok (max_requests (self w)), w).
Definition get_user_history : M (gmap string (list time)) :=
  λ w, (Ok (user_history (self w)), w).
Definition set_user_history (h : gmap string (list time)) : M unit :=
  λ w, (Ok tt,
        mkWorld (mkLimiter (window_size (self w)) (max_requests (self w)) h)
                (reads w)).

(** Python's [max(a, b)] on two arguments: [b] only if [b > a]. *)
Definition py_max (a b : Q) : Q :=
  if Qle_bool b a then a else b.

(** ** Binary64 arithmetic

    A finite Python float is a rational [m * 2^e] with [|m| < 2^53] and
    [e >= -1074].  The result of a float operation is the exact result
    rounded to the nearest such number, ties going to the even [m]. *)

(** For positive [n] and [d], the largest [e] with [2^e <= n / d]. *)
Definition floor_log2 (n d : positive) : Z :=
  let e0 := Z.log2 (Zpos n) - Z.log2 (Zpos d) in
  let below :=
    if 0 <=? e0 then Zpos n <? 2 ^ e0 * Zpos d
    else Zpos n * 2 ^ (- e0) <? Zpos d in
  if below then e0 - 1 else e0.

(** The integer nearest to [a / b], for [0 <= a] and [0 < b]; a tie goes to
    the even one. *)
Definition round_half_even (a b : Z) : Z :=
  let q := a / b in
  match 2 * (a `mod` b) ?= b with
  | Lt => q
  | Gt => q + 1
  | Eq => if Z.even q then q else q + 1
  end.

(** The binary64 number nearest to [n / d]: a multiple of [2^u], where [u]
    leaves 53 bits for the mantissa and is at least -1074 (subnormals). *)
Definition round64_pos (n d : positive) : Q :=
  let e := floor_log2 n d in
  let u := Z.max (e - 52) (-1074) in
  if 0 <=? u
  then inject_Z (round_half_even (Zpos n) (Zpos d * 2 ^ u) * 2 ^ u)
  else Qmake (round_half_even (Zpos n * 2 ^ (- u)) (Zpos d))
             (Z.to_pos (2 ^ (- u))).

Definition round64 (x : Q) : Q :=
  Qred match Qnum x with
       | Z0 => 0%Q
       | Zpos n => round64_pos n (Qden x)
       | Zneg n => (- round64_pos n (Qden x))%Q
       end.

(** [float(i)] for a Python int, as done when an int meets a float in an
    arithmetic expression. *)
Definition float_of_int (i : Z) : Q := round64 (inject_Z i).

(** Float [+] and [-]. *)
Definition float_add (a b : Q) : Q := round64 (a + b)%Q.
Definition float_sub (a b : Q) : Q := round64 (a - b)%Q.

(** The [while] loop of [_cleanup_window] on the deque of one user: pop the
    head as long as the deque is non-empty and its head is [<= bound]. *)
Fixpoint popleft_while (bound : time) (d : list time) : list time :=
  match d with
  | [] => []
  | t :: d' => if Qle_bool t bound then popleft_while bound d' else d
  end.

Section Methods.

Variable clock : nat → time.

(** [time.time()] *)
Definition time_time : M time :=
  λ w, (Ok (clock (reads w)), mkWorld (self w) (S (reads w))).

Definition _cleanup_window (user_id : string) (current_time : time) : M unit :=
  h ← get_user_history;
  match h !! user_id with
  | Some d =>
      ws ← get_window_size;
      let d' := popleft_while (current_time - inject_Z ws)%Q d in
      match d' with
      | [] => set_user_history (delete user_id h)
      | _ => set_user_history (<[user_id := d']> h)
      end
  | None => mret tt
  end.

Definition can_send_message (user_id : string) : M bool :=
  current_time ← time_time;
  _cleanup_window user_id current_time;;
  h ← get_user_history;
  mr ← get_max_requests;
  mret (Z.of_nat (length (default [] (h !! user_id))) <? mr).

Definition record_message (user_id : string) : M bool :=
  current_time ← time_time;
  ok ← can_send_message user_id;
  if (ok : bool) then
    h ← get_user_history;
    (match h !! user_id with
     | None => set_user_history (<[user_id := []]> h)
     | Some _ => mret tt
     end);;
    h ← get_user_history;
    match h !! user_id with
    | Some d =>
        set_user_history (<[user_id := d ++ [current_time]]> h);;
        mret true
    | None => raise KeyError
    end
  else mret false.

Definition time_until_next_allowed (user_id : string) : M time :=
  current_time ← time_time;
  _cleanup_window user_id current_time;;
  h ← get_user_history;
  mr ← get_max_requests;
  match h !! user_id with
  | None => mret 0%Q
  | Some d =>
      if Z.of_nat (length d) <? mr then mret 0%Q
      else match d with
           | [] => raise IndexError
           | oldest :: _ =>
               ws ← get_window_size;
               mret (py_max 0 (float_sub (float_add oldest (float_of_int ws))
                                         current_time))
           end
  end.

End Methods.

(** ** Programs over the public interface *)

Inductive op : Type :=
| CanSend (user_id : string)
| Record (user_id : string)
| TimeUntil (user_id : string).

(** The world after one public call, whatever it returned. *)
Definition exec (clock : nat → time) (o : op) (w : World) : World :=
  match o with
  | CanSend k => snd (can_send_message clock k w)
  | Record k => snd (record_message clock k w)
  | TimeUntil k => snd (time_until_next_allowed clock k w)
  end.

(** Worlds a limiter built by [__init__ ws mr] can be in: the fresh object,
    and whatever any sequence of public calls makes of it. *)
Inductive reachable (clock : nat → time) (ws mr : Z) : World → Prop :=
| reach_init l :
    __init__ ws mr = Ok l → reachable clock ws mr (mkWorld l 0)
| reach_step o w :
    reachable clock ws mr w → reachable clock ws mr (exec clock o w).

(** A clock that never goes back. *)
Definition monotone (clock : nat → time) : Prop :=
  ∀ n, (clock n <= clock (S n))%Q.

(** ** Vocabulary of the properties *)

(** The limiter object after [_cleanup_window user_id now]. *)
Definition after_cleanup (user_id : string) (now : time)
    (l : SlidingWindowRateLimiter) : SlidingWindowRateLimiter :=
  self (snd (_cleanup_window user_id now (mkWorld l 0))).

(** The deque of a user, [[]] when the user is not in the dict. *)
Definition history_of (l : SlidingWindowRateLimiter) (user_id : string)
  : list time :=
  default [] (user_history l !! user_id).

(** [t] has aged out at [now]: the test of the cleanup loop. *)
Definition aged_out (ws : Z) (now t : time) : bool :=
  Qle_bool t (now - inject_Z ws)%Q.

(** [t] is still within the trailing window at [now]. *)
Definition in_window (ws : Z) (now t : time) : bool :=
  negb (aged_out ws now t).

(** Number of recorded timestamps of a user within the window at [now]. *)
Definition window_count (l : SlidingWindowRateLimiter) (user_id : string)
    (now : time) : nat :=
  length (filter (λ t, in_window (window_size l) now t = true)
                 (history_of l user_id)).

(** Oldest first: every entry is [<=] all later ones. *)
Definition oldest_first (d : list time) : Prop := StronglySorted Qle d.

(** [record] as a single-snapshot operation: cleanup, admission check and
    append all use the one [now] it is given.  This is the operation the
    design text describes; it is compared below with [record_message]. *)
Definition record_single_snapshot (now : time) (user_id : string) : M bool :=
  _cleanup_window user_id now;;
  h ← get_user_history;
  mr ← get_max_requests;
  if Z.of_nat (length (default [] (h !! user_id))) <? mr then
    set_user_history (<[user_id := default [] (h !! user_id) ++ [now]]> h);;
    mret true
  else mret false.

(** Every deque in the dict is non-empty and holds at most [max_requests]
    entries. *)
Definition bounded (l : SlidingWindowRateLimiter) : Prop :=
  ∀ k d, user_history l !! k = Some d →
         d ≠ [] ∧ Z.of_nat (length d) ≤ max_requests l.

(** Every deque is oldest first and holds nothing later than the next clock
    reading. *)
Definition chronological (clock : nat → time) (w : World) : Prop :=
  ∀ k d, user_history (self w) !! k = Some d →
         oldest_first d ∧ Forall (λ t, (t <= clock (reads w))%Q) d.

(** A clock given by its first readings. *)
Definition clock_of (readings : list time) (n : nat) : time :=
  nth n readings 0%Q.

(** A freshly built limiter before any clock read. *)
Definition fresh (ws mr : Z) : World := mkWorld (mkLimiter ws mr ∅) 0.

(** Scenario A: three [record_message] calls for one user at times 0, 5
    and 10, with a [time_until_next_allowed] after the second.  Each
    [record_message] reads the clock twice. *)
Definition scenario_A_clock : nat → time :=
  clock_of [0; 0; 5; 5; 5; 10; 10]%Q.

Definition scenario_A : M (bool * bool * time * bool) :=
  r0 ← record_message scenario_A_clock "u";
  r5 ← record_message scenario_A_clock "u";
  t5 ← time_until_next_allowed scenario_A_clock "u";
  r10 ← record_message scenario_A_clock "u";
  mret (r0, r5, t5, r10).

(** The user a public call is about. *)
Definition op_key (o : op) : string :=
  match o with
  | CanSend k | Record k | TimeUntil k => k
  end.

(** Two limiter objects that a call about [user_id] cannot tell apart: same
    configuration, same deque (or absence) for that user. *)
Definition same_view (user_id : string)
    (l1 l2 : SlidingWindowRateLimiter) : Prop :=
  window_size l1 = window_size l2 ∧
  max_requests l1 = max_requests l2 ∧
  user_history l1 !! user_id = user_history l2 !! user_id.

(** A clock whose n-th reading is n seconds. *)
Definition seconds_clock (n : nat) : time := inject_Z (Z.of_nat n).

(** What one public call adds to the admission log of [user_id]: an
    admitted [record_message user_id] adds the timestamp it stores (its own
    clock reading) paired with the time its check read (the reading taken
    inside [can_send_message]); any other call adds nothing. *)
Definition admission_of (clock : nat → time) (user_id : string)
    (o : op) (w : World) : list (time * time) :=
  match o with
  | Record k =>
      if decide (k = user_id) then
        match fst (record_message clock k w) with
        | Ok true => [(clock (reads w), clock (S (reads w)))]
        | _ => []
        end
      else []
  | _ => []
  end.

(** The admission log of [user_id] over a sequence of public calls run from
    [w], oldest admission first. *)
Fixpoint admission_log (clock : nat → time) (user_id : string)
    (ops : list op) (w : World) : list (time * time) :=
  match ops with
  | [] => []
  | o :: ops' =>
      admission_of clock user_id o w
      ++ admission_log clock user_id ops' (exec clock o w)
  end.

(** Number of logged admissions whose stored timestamp is within the window
    at [now]. *)
Definition admitted_within (ws : Z) (now : time)
    (log : list (time * time)) : nat :=
  length (filter (λ t, in_window ws now t = true) (log.*1)).

(** A log in which every admission was made with fewer than [mr] earlier
    admissions within the window at the time of its check. *)
Inductive window_respected (ws mr : Z) : list (time * time) → Prop :=
| wr_nil : window_respected ws mr []
| wr_snoc log s c :
    window_respected ws mr log →
    Z.of_nat (admitted_within ws c log) < mr →
    window_respected ws mr (log ++ [(s, c)]).

(** ** The demonstration driver *)

(** One line printed by [test_rate_limiter], as the values interpolated
    into it: the message id, the user id, the result of [record_message]
    and the wait returned by [time_until_next_allowed] (printed only for a
    refused message).  The rendering of these values as text is not
    modelled. *)
Record line : Type := mkLine {
  line_message_id : Z;
  line_user_id : Z;
  line_result : bool;
  line_wait_time : time
}.

(** The body of the two [for] loops of [test_rate_limiter].  [str] of an
    int is its decimal rendering, [pretty].  The closing
    [time.sleep(random.uniform(0.1, 1.0))] touches no state of the program:
    the time it lets pass shows in the clock readings that follow. *)
Definition send_message (clock : nat → time) (message_id : Z) : M line :=
  let user_id := message_id `mod` 5 + 1 in
  res ← record_message clock (pretty user_id);
  wait_time ← time_until_next_allowed clock (pretty user_id);
  mret (mkLine message_id user_id res wait_time).

(** A [for message_id in ...] loop of the driver, collecting its lines. *)
Fixpoint message_stream (clock : nat → time) (ids : list Z)
  : M (list line) :=
  match ids with
  | [] => mret []
  | message_id :: ids' =>
      l ← send_message clock message_id;
      ls ← message_stream clock ids';
      mret (l :: ls)
  end.

(** [test_rate_limiter]: a limiter with a 10-second window and one message
    allowed, the stream of messages 1 to 10 and, after the pause, the stream
    of messages 11 to 20. *)
Definition test_rate_limiter (clock : nat → time) : result (list line) :=
  match __init__ 10 1 with
  | Ok limiter =>
      fst ((first ← message_stream clock (seqZ 1 10);
            second ← message_stream clock (seqZ 11 10);
            mret (first ++ second)) (mkWorld limiter 0))
  | Raise e => Raise e
  end.

(** The wait [time_until_next_allowed] computes for a user at the quota
    whose oldest entry is [oldest], when asked at [now]. *)
Definition reported_wait (ws : Z) (oldest now : time) : time :=
  py_max 0 (float_sub (float_add oldest (float_of_int ws)) now).

(** The dict key of the user a message is sent for. *)
Definition stream_key (message_id : Z) : string :=
  pretty (message_id `mod` 5 + 1).

(** ** Basic facts *)

Lemma world_eta (w : World) : mkWorld (self w) (reads w) = w.
Proof. by destruct w. Qed.

Lemma limiter_eta (l : SlidingWindowRateLimiter) :
  mkLimiter (window_size l) (max_requests l) (user_history l) = l.
Proof. by destruct l. Qed.

Lemma py_max_Qmax (a b : Q) : py_max a b = Qmax a b.
Proof.
  unfold py_max, Qmax, GenericMinMax.gmax.
  destruct (Qle_bool b a) eqn:E.
  - apply Qle_bool_iff in E.
    destruct (a ?= b)%Q eqn:C; try reflexivity.
    rewrite <- Qlt_alt in C. lra.
  - destruct (a ?= b)%Q eqn:C; try reflexivity.
    + rewrite <- Qeq_alt in C.
      assert (Qle_bool b a = true) by (apply Qle_bool_iff; lra). congruence.
    + rewrite <- Qgt_alt in C.
      assert (Qle_bool b a = true) by (apply Qle_bool_iff; lra). congruence.
Qed.

Lemma py_max_nonneg (x : Q) : (0 <= py_max 0 x)%Q.
Proof.
  unfold py_max. destruct (Qle_bool x 0) eqn:E; [lra|].
  destruct (Qlt_le_dec 0 x) as [H|H]; [lra|].
  apply Qle_bool_iff in H. congruence.
Qed.

(** *** The cleanup loop *)

Lemma popleft_while_length bound d :
  (length (popleft_while bound d) ≤ length d)%nat.
Proof.
  induction d as [|t d IH]; simpl; [lia|].
  destruct (Qle_bool t bound); simpl; lia.
Qed.

(** The loop either pops nothing or leaves a strictly shorter deque. *)
Lemma popleft_while_same_length bound d :
  length (popleft_while bound d) = length d → popleft_while bound d = d.
Proof.
  destruct d as [|t d]; simpl; [done|].
  destruct (Qle_bool t bound); [|done].
  pose proof (popleft_while_length bound d). simpl. lia.
Qed.

Lemma popleft_while_suffix bound d : popleft_while bound d `suffix_of` d.
Proof.
  induction d as [|t d IH]; simpl; [done|].
  destruct (Qle_bool t bound); [by apply suffix_cons_r|done].
Qed.

Lemma popleft_while_head bound d t d' :
  popleft_while bound d = t :: d' → Qle_bool t bound = false.
Proof.
  induction d as [|x d IH]; simpl; [done|].
  destruct (Qle_bool x bound) eqn:E; [done|]. congruence.
Qed.

Lemma popleft_while_idem bound d :
  popleft_while bound (popleft_while bound d) = popleft_while bound d.
Proof.
  destruct (popleft_while bound d) as [|t d'] eqn:E; [done|].
  simpl. by rewrite (popleft_while_head _ _ _ _ E).
Qed.

Lemma popleft_while_all_aged bound d :
  Forall (λ t, Qle_bool t bound = true) d → popleft_while bound d = [].
Proof.
  induction 1 as [|t d Ht _ IH]; simpl; [done|]. by rewrite Ht.
Qed.

Lemma oldest_first_suffix d1 d2 :
  d1 `suffix_of` d2 → oldest_first d2 → oldest_first d1.
Proof.
  intros [p ->]. unfold oldest_first.
  induction p as [|x p IH]; simpl; [done|].
  intros H. apply IH. by apply StronglySorted_inv in H as [? _].
Qed.

Lemma filter_all_keep {A} (P : A → Prop) `{∀ x, Decision (P x)} (l : list A) :
  Forall P l → filter P l = l.
Proof.
  induction 1 as [|x l Hx _ IH]; [done|].
  by rewrite filter_cons_True, IH.
Qed.

(** On a deque that is oldest first, the prefix trim is a filter. *)
Lemma popleft_while_filter bound d :
  oldest_first d →
  popleft_while bound d = filter (λ t, Qle_bool t bound = false) d.
Proof.
  unfold oldest_first.
  induction 1 as [|t d Hs IH Hall]; simpl; [done|].
  destruct (Qle_bool t bound) eqn:E.
  - by rewrite filter_cons_False by congruence.
  - rewrite filter_cons_True by done. f_equal.
    symmetry. apply filter_all_keep.
    eapply Forall_impl; [exact Hall|]. intros x Hx. simpl in Hx.
    destruct (Qle_bool x bound) eqn:Ex; [|done].
    apply Qle_bool_iff in Ex.
    assert (Qle_bool t bound = true) by (apply Qle_bool_iff; lra).
    congruence.
Qed.

(** *** What each method computes *)

Ltac unfold_monad :=
  unfold mbind, mret, M_bind, M_ret, raise, get_user_history,
    get_window_size, get_max_requests, set_user_history, time_time in *;
  simpl in *.

Lemma cleanup_window_run k now w :
  _cleanup_window k now w
  = (Ok tt, mkWorld (after_cleanup k now (self w)) (reads w)).
Proof.
  unfold after_cleanup, _cleanup_window. unfold_monad.
  destruct (user_history (self w) !! k) as [d|]; simpl.
  - by destruct (popleft_while _ d).
  - by rewrite world_eta.
Qed.

Lemma after_cleanup_window_size k now l :
  window_size (after_cleanup k now l) = window_size l.
Proof.
  unfold after_cleanup, _cleanup_window. unfold_monad.
  destruct (user_history l !! k) as [d|]; simpl; [|done].
  by destruct (popleft_while _ d).
Qed.

Lemma after_cleanup_max_requests k now l :
  max_requests (after_cleanup k now l) = max_requests l.
Proof.
  unfold after_cleanup, _cleanup_window. unfold_monad.
  destruct (user_history l !! k) as [d|]; simpl; [|done].
  by destruct (popleft_while _ d).
Qed.

Lemma after_cleanup_lookup k now l :
  user_history (after_cleanup k now l) !! k
  = match popleft_while (now - inject_Z (window_size l))%Q (history_of l k) with
    | [] => None
    | d' => Some d'
    end.
Proof.
  unfold after_cleanup, _cleanup_window, history_of. unfold_monad.
  destruct (user_history l !! k) as [d|] eqn:E; simpl; [|done].
  destruct (popleft_while _ d); simpl.
  - by rewrite lookup_delete_eq.
  - by rewrite lookup_insert_eq.
Qed.

Lemma after_cleanup_lookup_ne k k' now l :
  k ≠ k' →
  user_history (after_cleanup k now l) !! k' = user_history l !! k'.
Proof.
  intros Hne. unfold after_cleanup, _cleanup_window. unfold_monad.
  destruct (user_history l !! k) as [d|] eqn:E; simpl; [|done].
  destruct (popleft_while _ d); simpl.
  - by rewrite lookup_delete_ne.
  - by rewrite lookup_insert_ne.
Qed.

Lemma history_of_after_cleanup k now l :
  history_of (after_cleanup k now l) k
  = popleft_while (now - inject_Z (window_size l))%Q (history_of l k).
Proof.
  unfold history_of at 1. rewrite after_cleanup_lookup.
  by destruct (popleft_while _ _).
Qed.

(** When the loop pops nothing from a non-empty deque, or the user is not
    in the dict, the object is left as it was. *)
Lemma after_cleanup_unchanged k now l :
  (∀ d, user_history l !! k = Some d →
        d ≠ [] ∧ popleft_while (now - inject_Z (window_size l))%Q d = d) →
  after_cleanup k now l = l.
Proof.
  intros H. unfold after_cleanup, _cleanup_window. unfold_monad.
  destruct (user_history l !! k) as [d|] eqn:E; simpl; [|done].
  destruct (H d eq_refl) as [Hne ->].
  destruct d as [|t d]; [done|]. simpl.
  rewrite insert_id by done. apply limiter_eta.
Qed.

Lemma can_send_message_run clock k w :
  can_send_message clock k w
  = let l' := after_cleanup k (clock (reads w)) (self w) in
    (Ok (Z.of_nat (length (history_of l' k)) <? max_requests (self w)),
     mkWorld l' (S (reads w))).
Proof.
  unfold can_send_message.
  unfold mbind at 1, M_bind at 1, time_time. simpl.
  unfold mbind at 1, M_bind at 1. rewrite cleanup_window_run.
  unfold_monad. by rewrite after_cleanup_max_requests.
Qed.

Lemma record_message_run clock k w :
  record_message clock k w
  = let t1 := clock (reads w) in
    let l' := after_cleanup k (clock (S (reads w))) (self w) in
    if Z.of_nat (length (history_of l' k)) <? max_requests (self w) then
      (Ok true,
       mkWorld (mkLimiter (window_size (self w)) (max_requests (self w))
                  (<[k := history_of l' k ++ [t1]]> (user_history l')))
               (S (S (reads w))))
    else (Ok false, mkWorld l' (S (S (reads w)))).
Proof.
  unfold record_message.
  unfold mbind at 1, M_bind at 1, time_time. simpl.
  unfold mbind at 1, M_bind at 1. rewrite can_send_message_run. simpl.
  destruct (_ <? _); [|done].
  unfold_monad. unfold history_of.
  destruct (user_history _ !! k) as [d|] eqn:E; simpl.
  - rewrite E. simpl.
    by rewrite after_cleanup_window_size, after_cleanup_max_requests.
  - rewrite lookup_insert_eq. simpl. rewrite insert_insert_eq.
    by rewrite after_cleanup_window_size, after_cleanup_max_requests.
Qed.

Lemma time_until_next_allowed_run clock k w :
  time_until_next_allowed clock k w
  = let now := clock (reads w) in
    let l' := after_cleanup k now (self w) in
    (match user_history l' !! k with
     | None => Ok 0%Q
     | Some d =>
         if Z.of_nat (length d) <? max_requests (self w) then Ok 0%Q
         else match d with
              | [] => Raise IndexError
              | oldest :: _ =>
                  Ok (py_max 0
                        (float_sub
                           (float_add oldest
                              (float_of_int (window_size (self w))))
                           now))
              end
     end,
     mkWorld l' (S (reads w))).
Proof.
  unfold time_until_next_allowed.
  unfold mbind at 1, M_bind at 1, time_time. simpl.
  unfold mbind at 1, M_bind at 1. rewrite cleanup_window_run.
  unfold_monad. rewrite after_cleanup_max_requests.
  destruct (user_history _ !! k) as [d|]; [|done].
  destruct (_ <? _); [done|]. destruct d; [done|].
  simpl. by rewrite after_cleanup_window_size.
Qed.

Lemma record_single_snapshot_run now k w :
  record_single_snapshot now k w
  = let l' := after_cleanup k now (self w) in
    if Z.of_nat (length (history_of l' k)) <? max_requests (self w) then
      (Ok true,
       mkWorld (mkLimiter (window_size (self w)) (max_requests (self w))
                  (<[k := history_of l' k ++ [now]]> (user_history l')))
               (reads w))
    else (Ok false, mkWorld l' (reads w)).
Proof.
  unfold record_single_snapshot.
  unfold mbind at 1, M_bind at 1. rewrite cleanup_window_run.
  unfold_monad. unfold history_of. rewrite after_cleanup_max_requests.
  destruct (_ <? _); [|done].
  simpl. by rewrite after_cleanup_window_size, after_cleanup_max_requests.
Qed.

(** *** Invariants of reachable worlds *)

Lemma after_cleanup_bounded k now l :
  bounded l → bounded (after_cleanup k now l).
Proof.
  intros Hb k' d'. unfold bounded. rewrite after_cleanup_max_requests.
  destruct (decide (k = k')) as [<-|Hne].
  - rewrite after_cleanup_lookup. unfold history_of.
    destruct (user_history l !! k) as [d|] eqn:E; simpl; [|done].
    pose proof (popleft_while_length (now - inject_Z (window_size l))%Q d) as Hlen.
    destruct (popleft_while _ d) as [|t p] eqn:Ep; [done|].
    intros [= <-]. split; [done|].
    destruct (Hb k d E) as [_ Hd]. lia.
  - rewrite after_cleanup_lookup_ne by done. apply Hb.
Qed.

Lemma append_bounded k t l :
  bounded l →
  Z.of_nat (length (history_of l k)) < max_requests l →
  bounded (mkLimiter (window_size l) (max_requests l)
             (<[k := history_of l k ++ [t]]> (user_history l))).
Proof.
  intros Hb Hlt k' d'. simpl.
  destruct (decide (k = k')) as [<-|Hne].
  - rewrite lookup_insert_eq. intros [= <-]. split.
    + by destruct (history_of l k).
    + rewrite length_app. simpl. lia.
  - rewrite lookup_insert_ne by done. apply Hb.
Qed.

Lemma exec_config clock o w :
  window_size (self (exec clock o w)) = window_size (self w) ∧
  max_requests (self (exec clock o w)) = max_requests (self w).
Proof.
  destruct o as [k|k|k]; simpl.
  - rewrite can_send_message_run. simpl.
    by rewrite after_cleanup_window_size, after_cleanup_max_requests.
  - rewrite record_message_run. simpl. destruct (_ <? _); simpl; [done|].
    by rewrite after_cleanup_window_size, after_cleanup_max_requests.
  - rewrite time_until_next_allowed_run. simpl.
    by rewrite after_cleanup_window_size, after_cleanup_max_requests.
Qed.

Lemma exec_bounded clock o w :
  bounded (self w) → bounded (self (exec clock o w)).
Proof.
  intros Hb. destruct o as [k|k|k]; simpl.
  - rewrite can_send_message_run. simpl. by apply after_cleanup_bounded.
  - rewrite record_message_run. simpl.
    pose proof (after_cleanup_bounded k (clock (S (reads w))) _ Hb) as Hb'.
    destruct (_ <? _) eqn:E; simpl; [|done].
    apply Z.ltb_lt in E.
    rewrite <- (after_cleanup_window_size k (clock (S (reads w))) (self w)).
    rewrite <- (after_cleanup_max_requests k (clock (S (reads w))) (self w)).
    apply append_bounded; [done|].
    by rewrite after_cleanup_max_requests.
  - rewrite time_until_next_allowed_run. simpl. by apply after_cleanup_bounded.
Qed.

Lemma reachable_config clock ws mr w :
  reachable clock ws mr w →
  window_size (self w) = ws ∧ max_requests (self w) = mr.
Proof.
  induction 1 as [l Hl|o w _ [IH1 IH2]].
  - by injection Hl as <-.
  - destruct (exec_config clock o w) as [-> ->]. done.
Qed.

Lemma reachable_bounded clock ws mr w :
  reachable clock ws mr w → bounded (self w).
Proof.
  induction 1 as [l Hl|o w _ IH].
  - injection Hl as <-. intros k d. simpl. by rewrite lookup_empty.
  - by apply exec_bounded.
Qed.

Lemma monotone_le clock i j :
  monotone clock → (i ≤ j)%nat → (clock i <= clock j)%Q.
Proof.
  intros Hm. induction 1 as [|j _ IH]; [lra|].
  specialize (Hm j). lra.
Qed.

Lemma after_cleanup_chronological clock k now l n m :
  monotone clock → (n ≤ m)%nat →
  chronological clock (mkWorld l n) →
  chronological clock (mkWorld (after_cleanup k now l) m).
Proof.
  intros Hm Hnm Hc k' d'. simpl.
  pose proof (monotone_le clock n m Hm Hnm) as Hle.
  assert (∀ d, oldest_first d ∧ Forall (λ t, (t <= clock n)%Q) d →
               ∀ p, p `suffix_of` d →
               oldest_first p ∧ Forall (λ t, (t <= clock m)%Q) p) as Hsuf.
  { intros d [Hs Hf] p Hp. split; [by eapply oldest_first_suffix|].
    destruct Hp as [q ->]. apply Forall_app in Hf as [_ Hf].
    eapply Forall_impl; [exact Hf|]. simpl. intros. lra. }
  destruct (decide (k = k')) as [<-|Hne].
  - rewrite after_cleanup_lookup. unfold history_of.
    destruct (user_history l !! k) as [d|] eqn:E; simpl; [|done].
    pose proof (popleft_while_suffix (now - inject_Z (window_size l))%Q d) as Hp.
    destruct (popleft_while _ d) as [|t p] eqn:Ep; [done|].
    intros [= <-]. eapply Hsuf; [|exact Hp]. by apply (Hc k).
  - rewrite after_cleanup_lookup_ne by done. intros E.
    eapply Hsuf; [by apply (Hc k')|done].
Qed.

Lemma exec_chronological clock o w :
  monotone clock → chronological clock w → chronological clock (exec clock o w).
Proof.
  intros Hm Hc. rewrite <- (world_eta w) in Hc.
  destruct o as [k|k|k]; simpl.
  - rewrite can_send_message_run. simpl.
    eapply after_cleanup_chronological; [done| |done]. lia.
  - rewrite record_message_run. simpl.
    destruct (_ <? _); simpl.
    2:{ eapply after_cleanup_chronological; [done| |done]. lia. }
    pose proof (after_cleanup_chronological clock k (clock (S (reads w)))
                  (self w) (reads w) (reads w) Hm (le_n _) Hc) as Hc'.
    intros k' d'. simpl.
    pose proof (monotone_le clock (reads w) (S (S (reads w))) Hm) as Hle.
    destruct (decide (k = k')) as [<-|Hne].
    + rewrite lookup_insert_eq. intros [= <-]. unfold history_of.
      destruct (user_history _ !! k) as [d|] eqn:E; simpl.
      * destruct (Hc' k d E) as [Hs Hf]. simpl in Hf. split.
        -- apply StronglySorted_app_2; [|done|repeat constructor].
           intros x1 x2 H1 H2. apply list_elem_of_singleton in H2 as ->.
           by apply (proj1 (Forall_forall _ _) Hf).
        -- apply Forall_app. split.
           ++ eapply Forall_impl; [exact Hf|]. simpl. intros.
              assert (clock (reads w) <= clock (S (S (reads w))))%Q
                by (apply Hle; lia). lra.
           ++ repeat constructor. apply Hle. lia.
      * split; [repeat constructor|]. repeat constructor. apply Hle. lia.
    + rewrite lookup_insert_ne by done. intros E.
      destruct (Hc' k' d' E) as [Hs Hf]. split; [done|].
      eapply Forall_impl; [exact Hf|]. simpl. intros.
      assert (clock (reads w) <= clock (S (S (reads w))))%Q
        by (apply Hle; lia). lra.
  - rewrite time_until_next_allowed_run. simpl.
    eapply after_cleanup_chronological; [done| |done]. lia.
Qed.

(** Under a clock that never goes back every deque stays oldest first. *)
Lemma reachable_chronological clock ws mr w :
  monotone clock → reachable clock ws mr w → chronological clock w.
Proof.
  intros Hm. induction 1 as [l Hl|o w _ IH].
  - injection Hl as <-. intros k d. simpl. by rewrite lookup_empty.
  - by apply exec_chronological.
Qed.

(** * Properties *)

(** ** Clock reads of [record_message] *)

(** C1, as stated, fails.  With a 10 s window and one request allowed, after
    an admission at time 0 a [record_message] whose own clock read returns
    9.999 and whose nested [can_send_message] reads 10 is admitted and stores
    9.999: the clock was read twice, the admission check evaluated at the
    stored timestamp says no, and no single snapshot [now] explains both the
    result and the stored history. *)
Lemma record_message_single_snapshot_cex :
  let clock := clock_of [0; 0; 9999 # 1000; 10]%Q in
  let w := exec clock (Record "u") (fresh 10 1) in
  reads (snd (record_message clock "u" w)) ≠ S (reads w) ∧
  fst (record_message clock "u" w) = Ok true ∧
  user_history (self (snd (record_message clock "u" w))) !! "u"
    = Some [9999 # 1000]%Q ∧
  fst (can_send_message clock "u" w) = Ok false ∧
  ¬ ∃ now : time,
      fst (record_message clock "u" w)
        = fst (record_single_snapshot now "u" w) ∧
      self (snd (record_message clock "u" w))
        = self (snd (record_single_snapshot now "u" w)).
Proof.
  intros clock w.
  split; [vm_compute; lia|]. split; [reflexivity|]. split; [reflexivity|].
  split; [reflexivity|].
  intros [now [Hr Hs]].
  rewrite record_single_snapshot_run in Hr, Hs.
  assert (history_of (after_cleanup "u" now (self w)) "u"
          = popleft_while (now - 10)%Q [0%Q]) as Hh
    by (rewrite history_of_after_cleanup; reflexivity).
  assert (max_requests (self w) = 1) as Hmr by reflexivity.
  assert (user_history (self (snd (record_message clock "u" w))) !! "u"
          = Some [9999 # 1000]%Q) as Hk by reflexivity.
  assert (fst (record_message clock "u" w) = Ok true) as Ht by reflexivity.
  apply (f_equal (λ l, user_history l !! "u")) in Hs.
  cbv beta zeta in Hr, Hs. rewrite Hh, Hmr in Hr, Hs.
  rewrite Hk in Hs. rewrite Ht in Hr. clear Hh Hmr Hk Ht.
  simpl popleft_while in *.
  destruct (Qle_bool 0 (now - 10)) eqn:E; simpl in Hr, Hs.
  - rewrite lookup_insert_eq in Hs. injection Hs as <-.
    vm_compute in E. discriminate.
  - discriminate.
Qed.

(** C1, amended.  [record_message] reads the clock twice.  The first reading
    is the timestamp it appends on a [True] result; the second, taken inside
    [can_send_message], is the one used by the cleanup and by the admission
    check.  When the two readings are equal the call behaves as the
    single-snapshot operation at that reading. *)
Theorem record_message_clock_reads clock k w :
  let t1 := clock (reads w) in
  let t2 := clock (S (reads w)) in
  reads (snd (record_message clock k w)) = S (S (reads w)) ∧
  fst (record_message clock k w)
    = fst (can_send_message clock k (mkWorld (self w) (S (reads w)))) ∧
  (fst (record_message clock k w) = Ok true →
   user_history (self (snd (record_message clock k w))) !! k
     = Some (history_of (after_cleanup k t2 (self w)) k ++ [t1])) ∧
  (fst (record_message clock k w) = Ok false →
   self (snd (record_message clock k w)) = after_cleanup k t2 (self w)) ∧
  (t1 = t2 →
   fst (record_message clock k w) = fst (record_single_snapshot t1 k w) ∧
   self (snd (record_message clock k w))
     = self (snd (record_single_snapshot t1 k w))).
Proof.
  intros t1 t2. subst t1 t2.
  rewrite record_message_run, can_send_message_run, record_single_snapshot_run.
  cbv zeta. simpl reads. simpl self.
  destruct (_ <? _) eqn:E; simpl; split_and!; try done.
  - intros _. by rewrite lookup_insert_eq.
  - intros Heq. rewrite Heq, E. done.
  - intros Heq. rewrite Heq, E. done.
Qed.

Lemma record_message_clock_reads_witness :
  let clock := clock_of [5; 5]%Q in
  user_history (self (snd (record_message clock "u" (fresh 10 1)))) !! "u"
    = Some [5%Q] ∧
  self (snd (record_message clock "u" (fresh 10 1)))
    = self (snd (record_single_snapshot 5%Q "u" (fresh 10 1))).
Proof.
  intros clock.
  destruct (record_message_clock_reads clock "u" (fresh 10 1))
    as (_ & _ & Ht & _ & Hs).
  split.
  - apply Ht. reflexivity.
  - apply Hs. reflexivity.
Defined.

(** ** Construction *)

(** C2, as stated, fails: [__init__] has no validation, so a window of 0 and
    a quota of -1 build a limiter and nothing is raised. *)
Lemma init_accepts_nonpositive_cex :
  __init__ 0 (-1) = Ok (mkLimiter 0 (-1) ∅) ∧
  ¬ ∃ e, __init__ 0 (-1) = Raise e.
Proof. split; [reflexivity|]. intros [e He]. discriminate He. Qed.

(** C2, amended.  Construction never fails: whatever [window_size] and
    [max_requests] are, the limiter is built holding exactly those values
    (nothing is clamped) and an empty history. *)
Theorem init_total ws mr :
  ∃ l, __init__ ws mr = Ok l ∧
       window_size l = ws ∧ max_requests l = mr ∧ user_history l = ∅.
Proof. eexists. split; [reflexivity|]. done. Qed.

(** ** The contract of [record_message] *)

Lemma after_cleanup_idem k now l :
  after_cleanup k now (after_cleanup k now l) = after_cleanup k now l.
Proof.
  apply after_cleanup_unchanged. intros d.
  rewrite after_cleanup_lookup, after_cleanup_window_size.
  destruct (popleft_while _ (history_of l k)) as [|t p] eqn:E; [done|].
  intros [= <-]. split; [done|].
  rewrite <- E. apply popleft_while_idem.
Qed.

(** A deque within its quota that is still at capacity after the cleanup
    lost nothing to it. *)
Lemma rejected_cleanup_unchanged k now l :
  bounded l →
  (Z.of_nat (length (history_of (after_cleanup k now l) k))
   <? max_requests l) = false →
  after_cleanup k now l = l.
Proof.
  intros Hb Hfull. apply Z.ltb_ge in Hfull.
  apply after_cleanup_unchanged. intros d Hd.
  destruct (Hb k d Hd) as [Hne Hlen]. split; [done|].
  apply popleft_while_same_length.
  rewrite history_of_after_cleanup in Hfull.
  unfold history_of in Hfull. rewrite Hd in Hfull. simpl in Hfull.
  pose proof (popleft_while_length (now - inject_Z (window_size l))%Q d).
  lia.
Qed.

(** C3.  In every world a limiter can reach, for every key: a [False] from
    [record_message] leaves the limiter object exactly as it was (nothing
    appended, nothing pruned, no key dropped), and a [True] means the call's
    own [current_time] now ends the key's deque.  The call never raises. *)
Theorem record_message_contract clock ws mr w k :
  reachable clock ws mr w →
  (∃ b, fst (record_message clock k w) = Ok b) ∧
  (fst (record_message clock k w) = Ok false →
   self (snd (record_message clock k w)) = self w) ∧
  (fst (record_message clock k w) = Ok true →
   ∃ d, d `suffix_of` history_of (self w) k ∧
        user_history (self (snd (record_message clock k w))) !! k
        = Some (d ++ [clock (reads w)])).
Proof.
  intros Hr. pose proof (reachable_bounded _ _ _ _ Hr) as Hb.
  rewrite record_message_run. cbv zeta.
  destruct (_ <? _) eqn:E; simpl; split_and!; eauto; try done.
  - intros _. eexists. split; [|by rewrite lookup_insert_eq].
    rewrite history_of_after_cleanup. apply popleft_while_suffix.
  - intros _. by apply rejected_cleanup_unchanged.
Qed.

Lemma record_message_contract_witness :
  let clock := clock_of [0; 0; 5; 5]%Q in
  let w := exec clock (Record "u") (fresh 10 1) in
  self (snd (record_message clock "u" w)) = self w.
Proof.
  intros clock w.
  assert (reachable clock 10 1 w) as Hr.
  { apply reach_step. apply reach_init. reflexivity. }
  destruct (record_message_contract clock 10 1 w "u" Hr) as (_ & Hf & _).
  apply Hf. reflexivity.
Defined.

(** Reachability matters here: a dict holding more than [max_requests]
    entries for a user, which no sequence of calls produces, is pruned by the
    nested cleanup even though the call then returns [False]. *)
Example record_message_prunes_overfull :
  let clock := clock_of [105; 105]%Q in
  let w := mkWorld (mkLimiter 10 1 {["u" := [0; 100; 101]%Q]}) 0 in
  fst (record_message clock "u" w) = Ok false ∧
  user_history (self (snd (record_message clock "u" w)))
  = {["u" := [100; 101]%Q]}.
Proof. by vm_compute. Qed.

(** ** Check and record agree *)

(** C4.  Let [can_send_message k] read the time [t] and return [b].  A
    [record_message k] whose clock reads also return [t] returns [b] too,
    whether it is run instead of the check (from the same world) or right
    after it; and when [b] is [False] it leaves the limiter object
    unchanged: unconditionally when run after the check, and from any world
    a limiter can reach when run instead of it. *)
Theorem check_record_consistency clock ws mr w k t b w1 :
  clock (reads w) = t →
  clock (S (reads w)) = t →
  clock (S (S (reads w))) = t →
  can_send_message clock k w = (Ok b, w1) →
  (fst (record_message clock k w) = Ok b ∧
   (b = false → reachable clock ws mr w →
    self (snd (record_message clock k w)) = self w)) ∧
  (fst (record_message clock k w1) = Ok b ∧
   (b = false → self (snd (record_message clock k w1)) = self w1)).
Proof.
  intros H0 H1 H2. rewrite can_send_message_run. cbv zeta.
  rewrite H0. intros [= Hb <-].
  rewrite !record_message_run. cbv zeta. simpl reads. simpl self.
  rewrite H1, H2, after_cleanup_idem, after_cleanup_max_requests, Hb.
  destruct b; simpl; split_and!; try done.
  intros _ Hr. apply rejected_cleanup_unchanged; [|done].
  by eapply reachable_bounded.
Qed.

Lemma check_record_consistency_witness :
  let clock := clock_of [0; 0; 5; 5; 5]%Q in
  let w := exec clock (Record "u") (fresh 10 1) in
  fst (record_message clock "u" w) = Ok false ∧
  self (snd (record_message clock "u" w)) = self w.
Proof.
  intros clock w.
  assert (reachable clock 10 1 w) as Hr.
  { apply reach_step. apply reach_init. reflexivity. }
  destruct (check_record_consistency clock 10 1 w "u" 5%Q false
              (snd (can_send_message clock "u" w)))
    as [[Hres Hsame] _]; try reflexivity.
  split; [exact Hres|]. apply Hsame; [reflexivity|exact Hr].
Defined.

(** ** The quota *)

(** What the loop pops had aged out, so it never reduces the number of
    entries within the window. *)
Lemma popleft_while_keeps_window bound d :
  filter (λ t, negb (Qle_bool t bound) = true) (popleft_while bound d)
  = filter (λ t, negb (Qle_bool t bound) = true) d.
Proof.
  induction d as [|t d IH]; simpl; [done|].
  destruct (Qle_bool t bound) eqn:E; [|done].
  rewrite IH. rewrite filter_cons_False; [done|]. by rewrite E.
Qed.

Lemma window_count_after_cleanup k now l :
  (window_count l k now
   ≤ length (history_of (after_cleanup k now l) k))%nat.
Proof.
  unfold window_count, in_window, aged_out.
  rewrite history_of_after_cleanup.
  rewrite <- popleft_while_keeps_window. apply length_filter.
Qed.

(** C5.  For a quota [mr >= 0], in every world a limiter can reach (any
    sequence of public calls, under any clock and so under every
    non-decreasing one) and for every key: the timestamps within the
    trailing window at any instant [now] number at most [mr], indeed the
    whole deque holds at most [mr] entries; and [record_message] refuses once
    the key has [mr] timestamps within the window at the time of its
    admission check. *)
Theorem quota_bound clock ws mr w k :
  0 ≤ mr →
  reachable clock ws mr w →
  (∀ now, Z.of_nat (window_count (self w) k now) ≤ mr) ∧
  Z.of_nat (length (history_of (self w) k)) ≤ mr ∧
  (mr ≤ Z.of_nat (window_count (self w) k (clock (S (reads w)))) →
   fst (record_message clock k w) = Ok false ∧
   history_of (self (snd (record_message clock k w))) k
   = history_of (self w) k).
Proof.
  intros Hmr Hr.
  pose proof (reachable_bounded _ _ _ _ Hr) as Hb.
  destruct (reachable_config _ _ _ _ Hr) as [_ Hcfg].
  assert (Z.of_nat (length (history_of (self w) k)) ≤ mr) as Hlen.
  { unfold history_of.
    destruct (user_history (self w) !! k) as [d|] eqn:E; simpl; [|lia].
    destruct (Hb k d E) as [_ Hd]. lia. }
  split_and!; [|done|].
  - intros now. unfold window_count.
    pose proof (length_filter
      (λ t, in_window (window_size (self w)) now t = true)
      (history_of (self w) k)). lia.
  - intros Hfull.
    pose proof (window_count_after_cleanup k (clock (S (reads w))) (self w)).
    rewrite record_message_run. cbv zeta.
    destruct (_ <? _) eqn:E; [apply Z.ltb_lt in E; lia|]. simpl.
    split; [done|]. by rewrite rejected_cleanup_unchanged.
Qed.

Lemma quota_bound_witness :
  let clock := clock_of [0; 0; 5; 5]%Q in
  let w := exec clock (Record "u") (fresh 10 1) in
  (∀ now, Z.of_nat (window_count (self w) "u" now) ≤ 1) ∧
  fst (record_message clock "u" w) = Ok false.
Proof.
  intros clock w.
  assert (reachable clock 10 1 w) as Hr.
  { apply reach_step. apply reach_init. reflexivity. }
  destruct (quota_bound clock 10 1 w "u" ltac:(lia) Hr) as (Hc & _ & Hf).
  split; [exact Hc|]. apply Hf. vm_compute. discriminate.
Defined.

(** ** Cleanup *)

(** C6.  [_cleanup_window k now] never fails and touches only [k]'s deque.
    It removes no timestamp that is still within the window; on a deque that
    is oldest first, as every deque of a world reached under a clock that
    never goes back is, it removes every timestamp with
    [t <= now - window_size], so what is left is exactly the timestamps
    within the window; the key is dropped exactly when nothing is left; and
    running it a second time with the same [now] changes nothing. *)
Theorem cleanup_window_exact k now w :
  let l := self w in
  let l' := after_cleanup k now l in
  let kept := λ t : time, in_window (window_size l) now t = true in
  _cleanup_window k now w = (Ok tt, mkWorld l' (reads w)) ∧
  filter kept (history_of l' k) = filter kept (history_of l k) ∧
  (oldest_first (history_of l k) →
   history_of l' k = filter kept (history_of l k)) ∧
  (∀ clock ws mr, monotone clock → reachable clock ws mr w →
                  oldest_first (history_of l k)) ∧
  (user_history l' !! k = None ↔ history_of l' k = []) ∧
  (∀ k', k ≠ k' → user_history l' !! k' = user_history l !! k') ∧
  (_cleanup_window k now;; _cleanup_window k now) w = _cleanup_window k now w.
Proof.
  intros l l' kept. subst l l' kept. split_and!.
  - apply cleanup_window_run.
  - rewrite history_of_after_cleanup. unfold in_window, aged_out.
    apply popleft_while_keeps_window.
  - intros Hs. rewrite history_of_after_cleanup.
    rewrite (popleft_while_filter _ _ Hs). unfold in_window, aged_out.
    apply list_filter_iff. intros t. by destruct (Qle_bool _ _).
  - intros clock ws mr Hm Hr. unfold history_of.
    destruct (user_history (self w) !! k) as [d|] eqn:E; simpl.
    + by destruct (reachable_chronological clock ws mr w Hm Hr k d E).
    + constructor.
  - rewrite history_of_after_cleanup, after_cleanup_lookup.
    by destruct (popleft_while _ _).
  - intros k' Hne. by apply after_cleanup_lookup_ne.
  - unfold mbind, M_bind. rewrite cleanup_window_run.
    rewrite cleanup_window_run. simpl. by rewrite after_cleanup_idem.
Qed.

Lemma cleanup_window_exact_witness :
  let w := mkWorld (mkLimiter 10 3 {["u" := [0; 5; 12]%Q]}) 0 in
  history_of (after_cleanup "u" 12%Q (self w)) "u" = [5; 12]%Q.
Proof.
  intros w.
  destruct (cleanup_window_exact "u" 12%Q w) as (_ & _ & Hs & _).
  rewrite Hs; [reflexivity|].
  unfold oldest_first. change (history_of (self w) "u") with [0; 5; 12]%Q.
  repeat constructor; unfold Qle; simpl; lia.
Defined.

(** ** Waiting time *)

Lemma oldest_first_head t d : oldest_first (t :: d) → Forall (Qle t) d.
Proof. unfold oldest_first. by rewrite StronglySorted_cons; intros [? _]. Qed.

(** C7.  [time_until_next_allowed k] never fails; it reads the clock once
    and leaves the limiter as the cleanup at that reading does.  Its result
    is 0 when after that cleanup [k] is not in the dict or holds fewer than
    [max_requests] entries; otherwise it is
    [max(0, oldest + window_size - now)], evaluated as the source does in
    float arithmetic, for [oldest] the first entry of [k]'s deque, which is
    its smallest when the deque is oldest first.  The result is never
    negative. *)
Theorem time_until_next_allowed_spec clock k w :
  let now := clock (reads w) in
  let l' := after_cleanup k now (self w) in
  ∃ v, time_until_next_allowed clock k w = (Ok v, mkWorld l' (S (reads w))) ∧
       (0 <= v)%Q ∧
       (user_history l' !! k = None → v = 0%Q) ∧
       (Z.of_nat (length (history_of l' k)) < max_requests (self w) →
        v = 0%Q) ∧
       (user_history l' !! k ≠ None →
        max_requests (self w) ≤ Z.of_nat (length (history_of l' k)) →
        ∃ oldest rest,
          history_of l' k = oldest :: rest ∧
          v = Qmax 0 (float_sub
                        (float_add oldest (float_of_int (window_size (self w))))
                        now) ∧
          (oldest_first (history_of (self w) k) → Forall (Qle oldest) rest)).
Proof.
  intros now l'. rewrite time_until_next_allowed_run. cbv zeta.
  fold now. fold l'. unfold history_of at 1 2 3.
  pose proof (after_cleanup_lookup k now (self w)) as Hl. fold l' in Hl.
  pose proof (popleft_while_suffix
                (now - inject_Z (window_size (self w)))%Q
                (history_of (self w) k)) as Hsuf.
  destruct (user_history l' !! k) as [d|] eqn:Ed; simpl.
  2:{ eexists. split; [done|]. split_and!; try done; lra. }
  destruct (popleft_while _ (history_of (self w) k)) as [|t p] eqn:Ep;
    [done|]. injection Hl as ->. simpl.
  destruct (_ <? _) eqn:E.
  - eexists. split; [done|]. apply Z.ltb_lt in E.
    split_and!; try done; try lra. simpl in E. intros _ ?. lia.
  - eexists. split; [done|]. apply Z.ltb_ge in E. simpl in E.
    split_and!; try done.
    + apply py_max_nonneg.
    + intros ?. lia.
    + intros _ _. exists t, p. split_and!; [done|apply py_max_Qmax|].
      intros Hs. apply oldest_first_head. by eapply oldest_first_suffix.
Qed.

Lemma time_until_next_allowed_spec_witness :
  let clock := clock_of [0; 0; 5]%Q in
  let w := exec clock (Record "u") (fresh 10 1) in
  fst (time_until_next_allowed clock "u" w)
  = Ok (Qmax 0 (float_sub (float_add 0 (float_of_int 10)) 5)).
Proof.
  intros clock w.
  destruct (time_until_next_allowed_spec clock "u" w)
    as (v & Hrun & _ & _ & _ & Hfull).
  rewrite Hrun. simpl. f_equal.
  destruct Hfull as (oldest & rest & Hd & Hv & _).
  - vm_compute. discriminate.
  - vm_compute. discriminate.
  - injection Hd as <- <-. exact Hv.
Defined.

(** *** Rounding in the reported wait

    The floats nearest to 0.1, 0.3, 6.1 and 10.1 are written out as
    rationals. *)

Example round64_literals :
  round64 (1 # 10) = (3602879701896397 # 36028797018963968)%Q ∧
  round64 (101 # 10) = (5685794529555251 # 562949953421312)%Q ∧
  float_of_int 10 = 10%Q ∧
  float_add (inject_Z (2 ^ 53)) 1 = inject_Z (2 ^ 53) ∧
  float_add (inject_Z (2 ^ 53)) 3 = inject_Z (2 ^ 53 + 4) ∧
  round64 (3 # Z.to_pos (2 ^ 1075)) = (1 # Z.to_pos (2 ^ 1073))%Q.
Proof. by vm_compute. Qed.

(** [0.1 + 10] rounds to [10.1]: a user recorded at 0.1 and asked about at
    10.1 is still within a window of 10, yet the wait reported is 0. *)
Example reported_wait_rounds_to_zero :
  let oldest := (3602879701896397 # 36028797018963968)%Q in
  let now := (5685794529555251 # 562949953421312)%Q in
  aged_out 10 now oldest = false ∧ reported_wait 10 oldest now = 0%Q.
Proof. by vm_compute. Qed.

(** [(6.1 + 10) - 6.1] is one unit in the last place above 10, and
    [(0.1 + 10) - 0.3] is below the exact 9.8. *)
Example reported_wait_rounds :
  let t := (3433994715870003 # 562949953421312)%Q in
  reported_wait 10 t t = (5629499534213121 # 562949953421312)%Q ∧
  reported_wait 10 (3602879701896397 # 36028797018963968)
                   (5404319552844595 # 18014398509481984)
  = (5516909543528857 # 562949953421312)%Q.
Proof. by vm_compute. Qed.

(** ** Scenario A *)

(** C8.  With a window of 10 and one request allowed, for user "u":
    recording at 0 is admitted, recording at 5 is refused and the waiting
    time at 5 is exactly 5, and recording at 10 is admitted, because at
    [now = 10] the entry 0 satisfies [0 <= 10 - 10] and is purged: the deque
    then holds 10 alone. *)
Theorem scenario_A_results :
  ∃ l, __init__ 10 1 = Ok l ∧
       fst (scenario_A (mkWorld l 0)) = Ok (true, false, 5%Q, true) ∧
       aged_out 10 10 0 = true ∧
       user_history (self (snd (scenario_A (mkWorld l 0))))
       = {["u" := [10%Q]]}.
Proof. eexists. split; [reflexivity|]. by vm_compute. Qed.

(** ** Garbage collection *)

(** C9, as stated, fails for [record_message].  With a window of 10 and one
    request allowed, user "u" holds the single timestamp 0; at time 20 it
    has aged out, yet a [record_message] at 20 is admitted and leaves "u" in
    the dict, holding 20. *)
Lemma record_message_keeps_key_cex :
  let clock := clock_of [0; 0; 20; 20]%Q in
  let w := exec clock (Record "u") (fresh 10 1) in
  reachable clock 10 1 w ∧
  Forall (λ t, aged_out 10 20 t = true) (history_of (self w) "u") ∧
  fst (record_message clock "u" w) = Ok true ∧
  user_history (self (exec clock (Record "u") w)) !! "u" = Some [20%Q] ∧
  user_history (self (exec clock (Record "u") w)) !! "u" ≠ None.
Proof.
  intros clock w. split_and!.
  - apply reach_step. apply reach_init. reflexivity.
  - change (history_of (self w) "u") with [0%Q]. by repeat constructor.
  - reflexivity.
  - reflexivity.
  - change (user_history (self (exec clock (Record "u") w)) !! "u")
      with (Some [20%Q]). discriminate.
Qed.

Lemma all_aged_out_cleanup k now l :
  Forall (λ t, aged_out (window_size l) now t = true) (history_of l k) →
  user_history (after_cleanup k now l) !! k = None ∧
  history_of (after_cleanup k now l) k = [].
Proof.
  intros Ha. rewrite history_of_after_cleanup, after_cleanup_lookup.
  by rewrite (popleft_while_all_aged _ _ Ha).
Qed.

(** C9, amended.  In every world a limiter can reach, after any public call
    no key maps to an empty deque.  For a key all of whose timestamps have
    aged out at the time read by the call's cleanup,
    [can_send_message] and [time_until_next_allowed] leave the key out of the
    dict, while [record_message] drops the old entries and then, when
    [max_requests >= 1], admits the request and leaves the key in the dict
    holding the new timestamp alone (with [max_requests <= 0] it too leaves
    the key out). *)
Theorem garbage_collection clock ws mr w o k :
  reachable clock ws mr w →
  (∀ k', user_history (self (exec clock o w)) !! k' ≠ Some []) ∧
  (Forall (λ t, aged_out ws (clock (reads w)) t = true)
          (history_of (self w) k) →
   user_history (self (exec clock (CanSend k) w)) !! k = None ∧
   user_history (self (exec clock (TimeUntil k) w)) !! k = None) ∧
  (Forall (λ t, aged_out ws (clock (S (reads w))) t = true)
          (history_of (self w) k) →
   user_history (self (exec clock (Record k) w)) !! k
   = if 0 <? mr then Some [clock (reads w)] else None).
Proof.
  intros Hr. destruct (reachable_config _ _ _ _ Hr) as [Hws Hmr].
  split_and!.
  - intros k' Hk'.
    pose proof (reachable_bounded _ _ _ _ (reach_step _ _ _ o w Hr)) as Hb.
    by destruct (Hb k' [] Hk') as [? _].
  - rewrite <- Hws. intros Ha.
    destruct (all_aged_out_cleanup _ _ _ Ha) as [Hnone _].
    simpl. rewrite can_send_message_run, time_until_next_allowed_run.
    done.
  - rewrite <- Hws. intros Ha.
    destruct (all_aged_out_cleanup _ _ _ Ha) as [Hnone Hnil].
    simpl. rewrite record_message_run. cbv zeta. rewrite Hnil, Hmr. simpl.
    change (Z.of_nat 0) with 0.
    destruct (0 <? mr); simpl; [by rewrite lookup_insert_eq|done].
Qed.

Lemma garbage_collection_witness :
  let clock := clock_of [0; 0; 20]%Q in
  let w := exec clock (Record "u") (fresh 10 1) in
  user_history (self (exec clock (CanSend "u") w)) !! "u" = None.
Proof.
  intros clock w.
  assert (reachable clock 10 1 w) as Hr.
  { apply reach_step. apply reach_init. reflexivity. }
  destruct (garbage_collection clock 10 1 w (CanSend "u") "u" Hr)
    as (_ & Hgc & _).
  apply Hgc.
  change (history_of (self w) "u") with [0%Q]. by repeat constructor.
Defined.

(** ** Totality of [time_until_next_allowed] *)

(** C10.  [time_until_next_allowed] always returns a value: it raises
    neither [IndexError] nor [KeyError].  The read of the oldest entry
    happens only with the key in the dict, and after the cleanup a key in the
    dict has a non-empty deque; in every world a limiter can reach this
    holds of every key, before the cleanup too, and a non-zero result comes
    from a deque of at least [max_requests] entries. *)
Theorem time_until_next_allowed_total clock k w :
  (∃ v, fst (time_until_next_allowed clock k w) = Ok v) ∧
  (∀ e, fst (time_until_next_allowed clock k w) ≠ Raise e) ∧
  (∀ d, user_history (after_cleanup k (clock (reads w)) (self w)) !! k
        = Some d → d ≠ []) ∧
  (∀ v, fst (time_until_next_allowed clock k w) = Ok v → v ≠ 0%Q →
        ∃ d, user_history (after_cleanup k (clock (reads w)) (self w)) !! k
             = Some d ∧
             max_requests (self w) ≤ Z.of_nat (length d)) ∧
  (∀ ws mr, reachable clock ws mr w →
            ∀ k' d, user_history (self w) !! k' = Some d → d ≠ []).
Proof.
  assert (∀ d, user_history (after_cleanup k (clock (reads w)) (self w)) !! k
               = Some d → d ≠ []) as Hne.
  { intros d. rewrite after_cleanup_lookup.
    destruct (popleft_while _ _); [done|]. by intros [= <-]. }
  assert (∀ ws mr, reachable clock ws mr w →
            ∀ k' d, user_history (self w) !! k' = Some d → d ≠ []) as Hall.
  { intros ws mr Hr k' d' Hd'.
    by destruct (reachable_bounded _ _ _ _ Hr k' d' Hd'). }
  rewrite time_until_next_allowed_run. cbv zeta. simpl.
  destruct (user_history (after_cleanup _ _ _) !! k) as [d|] eqn:Ed.
  - specialize (Hne d eq_refl).
    destruct (_ <? _) eqn:E.
    + split_and!; [by eexists|done|by intros ? [= <-]| |done].
      by intros v [= <-] ?.
    + destruct d as [|t p]; [done|]. apply Z.ltb_ge in E.
      split_and!; [by eexists|done|by intros ? [= <-]| |done].
      intros v _ _. by eexists.
  - split_and!; [by eexists|done|done| |done].
    by intros v [= <-] ?.
Qed.

Lemma time_until_next_allowed_total_witness :
  let clock := clock_of [0; 0; 5]%Q in
  let w := exec clock (Record "u") (fresh 10 1) in
  user_history (self w) !! "u" = Some [0%Q] ∧ [0%Q] ≠ @nil Q.
Proof.
  intros clock w.
  destruct (time_until_next_allowed_total clock "u" w) as (_ & _ & _ & _ & Hne).
  assert (user_history (self w) !! "u" = Some [0%Q]) as Hu by reflexivity.
  split; [exact Hu|].
  apply (Hne 10 1) with (k' := "u"); [|exact Hu].
  apply reach_step. apply reach_init. reflexivity.
Defined.

(** * Further properties of the limiter *)

(** ** Users are independent *)

Lemma limiter_ext (l1 l2 : SlidingWindowRateLimiter) :
  window_size l1 = window_size l2 →
  max_requests l1 = max_requests l2 →
  (∀ k, user_history l1 !! k = user_history l2 !! k) →
  l1 = l2.
Proof.
  destruct l1, l2. simpl. intros -> -> H. f_equal. by apply map_eq.
Qed.

Lemma exec_lookup_ne clock o w k' :
  op_key o ≠ k' →
  user_history (self (exec clock o w)) !! k' = user_history (self w) !! k'.
Proof.
  intros Hne. destruct o as [k|k|k]; simpl in *.
  - rewrite can_send_message_run. simpl. by apply after_cleanup_lookup_ne.
  - rewrite record_message_run. cbv zeta. destruct (_ <? _); simpl.
    + rewrite lookup_insert_ne by done. by apply after_cleanup_lookup_ne.
    + by apply after_cleanup_lookup_ne.
  - rewrite time_until_next_allowed_run. simpl.
    by apply after_cleanup_lookup_ne.
Qed.

Lemma same_view_history_of k l1 l2 :
  same_view k l1 l2 → history_of l1 k = history_of l2 k.
Proof. intros (_ & _ & H). unfold history_of. by rewrite H. Qed.

Lemma same_view_after_cleanup k now l1 l2 :
  same_view k l1 l2 →
  same_view k (after_cleanup k now l1) (after_cleanup k now l2).
Proof.
  intros Hv. pose proof (same_view_history_of _ _ _ Hv) as Hh.
  destruct Hv as (Hws & Hmr & _). unfold same_view.
  rewrite !after_cleanup_window_size, !after_cleanup_max_requests.
  rewrite !after_cleanup_lookup, Hws, Hh. done.
Qed.

(** What a call about [k] returns depends on the limiter only through its
    configuration and [k]'s deque. *)
Lemma results_same_view clock k l1 l2 n :
  same_view k l1 l2 →
  fst (can_send_message clock k (mkWorld l1 n))
  = fst (can_send_message clock k (mkWorld l2 n)) ∧
  fst (record_message clock k (mkWorld l1 n))
  = fst (record_message clock k (mkWorld l2 n)) ∧
  fst (time_until_next_allowed clock k (mkWorld l1 n))
  = fst (time_until_next_allowed clock k (mkWorld l2 n)).
Proof.
  intros Hv.
  rewrite !can_send_message_run, !record_message_run,
    !time_until_next_allowed_run. cbv zeta. simpl.
  pose proof (same_view_after_cleanup k (clock n) _ _ Hv) as Hv0.
  pose proof (same_view_after_cleanup k (clock (S n)) _ _ Hv) as Hv1.
  rewrite (same_view_history_of _ _ _ Hv0), (same_view_history_of _ _ _ Hv1).
  destruct Hv0 as (_ & _ & ->). destruct Hv as (-> & -> & _).
  split_and!; [done| |done].
  by destruct (_ <? _).
Qed.

(** X1.  Users do not interfere.  A public call about one user leaves the
    deque of every other user as it was, and therefore does not change what
    [can_send_message], [record_message] or [time_until_next_allowed] answer
    for another user at any given clock position. *)
Theorem users_independent clock o w k' n :
  op_key o ≠ k' →
  user_history (self (exec clock o w)) !! k' = user_history (self w) !! k' ∧
  fst (can_send_message clock k' (mkWorld (self (exec clock o w)) n))
  = fst (can_send_message clock k' (mkWorld (self w) n)) ∧
  fst (record_message clock k' (mkWorld (self (exec clock o w)) n))
  = fst (record_message clock k' (mkWorld (self w) n)) ∧
  fst (time_until_next_allowed clock k' (mkWorld (self (exec clock o w)) n))
  = fst (time_until_next_allowed clock k' (mkWorld (self w) n)).
Proof.
  intros Hne. split; [by apply exec_lookup_ne|].
  apply results_same_view. destruct (exec_config clock o w) as [Hws Hmr].
  split_and!; [done|done|by apply exec_lookup_ne].
Qed.

Lemma users_independent_witness :
  let clock := clock_of [0; 0; 1; 1; 2; 2]%Q in
  let w := exec clock (Record "a") (fresh 10 1) in
  fst (record_message clock "b" (mkWorld (self (exec clock (Record "a") w)) 4))
  = fst (record_message clock "b" (mkWorld (self w) 4)).
Proof.
  intros clock w.
  destruct (users_independent clock (Record "a") w "b" 4) as (_ & _ & H & _).
  - simpl. discriminate.
  - exact H.
Defined.

(** ** Unknown users *)

(** X2.  A user who is not in the dict is treated as having no history, and
    asking about such a user costs no memory: [can_send_message] answers
    whether the quota is at least one and [time_until_next_allowed] answers
    0, both leaving the limiter object as it was; [record_message] admits
    the request exactly when the quota is at least one, creating the user's
    deque with its own clock reading as the only entry, and otherwise leaves
    the object as it was. *)
Theorem unknown_user clock k w :
  user_history (self w) !! k = None →
  can_send_message clock k w
  = (Ok (0 <? max_requests (self w)), mkWorld (self w) (S (reads w))) ∧
  time_until_next_allowed clock k w
  = (Ok 0%Q, mkWorld (self w) (S (reads w))) ∧
  record_message clock k w
  = if 0 <? max_requests (self w)
    then (Ok true,
          mkWorld (mkLimiter (window_size (self w)) (max_requests (self w))
                     (<[k := [clock (reads w)]]> (user_history (self w))))
                  (S (S (reads w))))
    else (Ok false, mkWorld (self w) (S (S (reads w)))).
Proof.
  intros Hnone.
  assert (∀ now, after_cleanup k now (self w) = self w) as Hc.
  { intros now. apply after_cleanup_unchanged. intros d. by rewrite Hnone. }
  rewrite can_send_message_run, time_until_next_allowed_run,
    record_message_run. cbv zeta. rewrite !Hc.
  unfold history_of. rewrite Hnone. simpl. done.
Qed.

Lemma unknown_user_witness :
  let clock := clock_of [7; 7]%Q in
  fst (record_message clock "new" (fresh 10 1)) = Ok true.
Proof.
  intros clock.
  destruct (unknown_user clock "new" (fresh 10 1)) as (_ & _ & H).
  - reflexivity.
  - rewrite H. reflexivity.
Defined.

(** X3.  Only an admitted [record_message] adds a user to the dict, and
    only its own user: [can_send_message] and [time_until_next_allowed]
    never add a key, whoever they are asked about. *)
Theorem keys_added_only_by_record clock o w k' :
  is_Some (user_history (self (exec clock o w)) !! k') →
  is_Some (user_history (self w) !! k') ∨
  (o = Record k' ∧ fst (record_message clock k' w) = Ok true).
Proof.
  destruct (decide (op_key o = k')) as [<-|Hne].
  2:{ rewrite exec_lookup_ne by done. by left. }
  assert (∀ now, is_Some (user_history
                    (after_cleanup (op_key o) now (self w)) !! op_key o) →
                 is_Some (user_history (self w) !! op_key o)) as Hc.
  { intros now. rewrite after_cleanup_lookup. unfold history_of.
    destruct (user_history (self w) !! op_key o); [by eauto|].
    simpl. by intros [? ?]. }
  destruct o as [k|k|k]; simpl in *.
  - rewrite can_send_message_run. simpl. intros H. left. by eapply Hc.
  - rewrite record_message_run. cbv zeta.
    destruct (_ <? _); simpl; intros H; [by right|]. left. by eapply Hc.
  - rewrite time_until_next_allowed_run. simpl. intros H. left. by eapply Hc.
Qed.

Lemma keys_added_only_by_record_witness :
  let clock := clock_of [3; 3]%Q in
  fst (record_message clock "u" (fresh 10 1)) = Ok true.
Proof.
  intros clock.
  destruct (keys_added_only_by_record clock (Record "u") (fresh 10 1) "u")
    as [[d Hd]|[_ H]].
  - by eexists.
  - discriminate Hd.
  - exact H.
Defined.

(** ** Degenerate configurations *)

Lemma absent_after_cleanup k now l :
  user_history l !! k = None → after_cleanup k now l = l.
Proof.
  intros Hnone. apply after_cleanup_unchanged. intros d. by rewrite Hnone.
Qed.

(** X4.  A limiter built with [max_requests <= 0] never admits anything: in
    every world it can reach the dict is empty and both [can_send_message]
    and [record_message] answer [False] for every user, while
    [time_until_next_allowed] still answers 0. *)
Theorem nonpositive_quota_admits_nothing clock ws mr w k :
  mr ≤ 0 →
  reachable clock ws mr w →
  user_history (self w) = ∅ ∧
  fst (can_send_message clock k w) = Ok false ∧
  fst (record_message clock k w) = Ok false ∧
  fst (time_until_next_allowed clock k w) = Ok 0%Q.
Proof.
  intros Hmr Hr.
  pose proof (reachable_bounded _ _ _ _ Hr) as Hb.
  destruct (reachable_config _ _ _ _ Hr) as [_ Hcfg].
  assert (∀ k', user_history (self w) !! k' = None) as Hnone.
  { intros k'. destruct (user_history (self w) !! k') as [d|] eqn:E; [|done].
    destruct (Hb k' d E) as [Hne Hlen]. destruct d; [done|].
    simpl in Hlen. lia. }
  split; [apply map_eq; intros k'; by rewrite Hnone, lookup_empty|].
  rewrite can_send_message_run, record_message_run,
    time_until_next_allowed_run. cbv zeta.
  rewrite !absent_after_cleanup by done.
  unfold history_of. rewrite Hnone, Hcfg. simpl.
  change (Z.of_nat 0) with 0.
  assert ((0 <? mr) = false) as -> by (apply Z.ltb_ge; lia). done.
Qed.

Lemma nonpositive_quota_admits_nothing_witness :
  let clock := clock_of [0; 0; 1; 1]%Q in
  let w := exec clock (Record "u") (fresh 10 0) in
  fst (record_message clock "u" w) = Ok false.
Proof.
  intros clock w.
  assert (reachable clock 10 0 w) as Hr.
  { apply reach_step. apply reach_init. reflexivity. }
  destruct (nonpositive_quota_admits_nothing clock 10 0 w "u" ltac:(lia) Hr)
    as (_ & _ & H & _).
  exact H.
Defined.

Lemma reachable_aged_nonpositive_window clock ws mr w k i :
  ws ≤ 0 → monotone clock → reachable clock ws mr w → (reads w ≤ i)%nat →
  history_of (after_cleanup k (clock i) (self w)) k = [].
Proof.
  intros Hws Hm Hr Hi.
  destruct (reachable_config _ _ _ _ Hr) as [Hcfg _].
  rewrite history_of_after_cleanup. apply popleft_while_all_aged.
  unfold history_of.
  destruct (user_history (self w) !! k) as [d|] eqn:E; simpl; [|done].
  destruct (reachable_chronological clock ws mr w Hm Hr k d E) as [_ Hf].
  eapply Forall_impl; [exact Hf|]. simpl. intros t Ht.
  pose proof (monotone_le clock _ _ Hm Hi).
  apply Qle_bool_iff. rewrite Hcfg.
  assert (inject_Z ws <= 0)%Q by (unfold Qle; simpl; lia).
  lra.
Qed.

(** X5.  A limiter built with [window_size <= 0] and a quota of at least one
    limits nothing: under a clock that never goes back, in every world it
    can reach, [can_send_message] and [record_message] answer [True] for
    every user and [time_until_next_allowed] answers 0. *)
Theorem nonpositive_window_limits_nothing clock ws mr w k :
  ws ≤ 0 → 1 ≤ mr →
  monotone clock →
  reachable clock ws mr w →
  fst (can_send_message clock k w) = Ok true ∧
  fst (record_message clock k w) = Ok true ∧
  fst (time_until_next_allowed clock k w) = Ok 0%Q.
Proof.
  intros Hws Hmr Hm Hr.
  destruct (reachable_config _ _ _ _ Hr) as [_ Hcfg].
  pose proof (reachable_aged_nonpositive_window clock ws mr w k (reads w)
                Hws Hm Hr (le_n _)) as H0.
  pose proof (reachable_aged_nonpositive_window clock ws mr w k (S (reads w))
                Hws Hm Hr (le_S _ _ (le_n _))) as H1.
  rewrite can_send_message_run, record_message_run,
    time_until_next_allowed_run. cbv zeta.
  rewrite H0, H1, Hcfg. simpl.
  change (Z.of_nat 0) with 0.
  assert ((0 <? mr) = true) as -> by (apply Z.ltb_lt; lia).
  split_and!; [done|done|].
  pose proof (after_cleanup_lookup k (clock (reads w)) (self w)) as Hl.
  rewrite history_of_after_cleanup in H0. rewrite H0 in Hl.
  by rewrite Hl.
Qed.

Lemma nonpositive_window_limits_nothing_witness :
  let clock := clock_of [0; 0; 0; 0]%Q in
  let w := exec clock (Record "u") (fresh 0 1) in
  fst (record_message clock "u" w) = Ok true.
Proof.
  intros clock w.
  assert (reachable clock 0 1 w) as Hr.
  { apply reach_step. apply reach_init. reflexivity. }
  assert (monotone clock) as Hm.
  { intros n. unfold clock, clock_of.
    do 5 (destruct n as [|n]; [simpl; lra|]). destruct n; simpl; lra. }
  destruct (nonpositive_window_limits_nothing clock 0 1 w "u"
              ltac:(lia) ltac:(lia) Hm Hr) as (_ & H & _).
  exact H.
Defined.

(** ** The admission check in terms of the window *)

Lemma seconds_clock_monotone : monotone seconds_clock.
Proof. intros n. unfold seconds_clock, Qle. simpl. lia. Qed.


Lemma after_cleanup_lookup_history k now l :
  user_history (after_cleanup k now l) !! k
  = match history_of (after_cleanup k now l) k with
    | [] => None
    | d => Some d
    end.
Proof.
  rewrite history_of_after_cleanup, after_cleanup_lookup.
  by destruct (popleft_while _ _).
Qed.

Lemma after_cleanup_count k now l :
  oldest_first (history_of l k) →
  length (history_of (after_cleanup k now l) k) = window_count l k now.
Proof.
  intros Hs. unfold window_count, in_window, aged_out.
  rewrite history_of_after_cleanup, (popleft_while_filter _ _ Hs).
  f_equal. apply list_filter_iff. intros t. by destruct (Qle_bool _ _).
Qed.

(** X8.  The admission rule in terms of the window.  Under a clock that
    never goes back, in every world a limiter can reach, a call is admitted
    exactly when fewer than [max_requests] of the user's recorded timestamps
    lie within the window at the time the call's check reads: the first
    clock reading for [can_send_message], the second for
    [record_message]. *)
Theorem admission_iff_window_count clock ws mr w k :
  monotone clock →
  reachable clock ws mr w →
  (fst (can_send_message clock k w) = Ok true ↔
   Z.of_nat (window_count (self w) k (clock (reads w))) < mr) ∧
  (fst (record_message clock k w) = Ok true ↔
   Z.of_nat (window_count (self w) k (clock (S (reads w)))) < mr).
Proof.
  intros Hm Hr.
  destruct (reachable_config _ _ _ _ Hr) as [_ Hcfg].
  assert (oldest_first (history_of (self w) k)) as Hs.
  { unfold history_of.
    destruct (user_history (self w) !! k) as [d|] eqn:E; simpl.
    - by destruct (reachable_chronological clock ws mr w Hm Hr k d E).
    - constructor. }
  rewrite can_send_message_run, record_message_run. cbv zeta.
  rewrite !after_cleanup_count, Hcfg by done. simpl.
  split.
  - rewrite <- Z.ltb_lt. split; [by intros [= ->]|by intros ->].
  - rewrite <- Z.ltb_lt. destruct (_ <? _); simpl; split; done.
Qed.

Lemma admission_iff_window_count_witness :
  let w := exec seconds_clock (Record "u") (fresh 10 2) in
  fst (record_message seconds_clock "u" w) = Ok true.
Proof.
  intros w.
  assert (reachable seconds_clock 10 2 w) as Hr.
  { apply reach_step. apply reach_init. reflexivity. }
  destruct (admission_iff_window_count seconds_clock 10 2 w "u"
              seconds_clock_monotone Hr) as [_ [_ H]].
  apply H. vm_compute. reflexivity.
Defined.

(** ** Cleanups compose *)

Lemma popleft_while_compose b1 b2 d :
  (b1 <= b2)%Q →
  popleft_while b2 (popleft_while b1 d) = popleft_while b2 d.
Proof.
  intros Hle. induction d as [|t d IH]; simpl; [done|].
  destruct (Qle_bool t b1) eqn:E1; [|done].
  apply Qle_bool_iff in E1.
  assert (Qle_bool t b2 = true) as -> by (apply Qle_bool_iff; lra).
  exact IH.
Qed.

Lemma after_cleanup_compose k now1 now2 l :
  (now1 <= now2)%Q →
  after_cleanup k now2 (after_cleanup k now1 l) = after_cleanup k now2 l.
Proof.
  intros Hle. apply limiter_ext.
  - by rewrite !after_cleanup_window_size.
  - by rewrite !after_cleanup_max_requests.
  - intros k'. destruct (decide (k = k')) as [<-|Hne].
    + rewrite !after_cleanup_lookup, history_of_after_cleanup,
        after_cleanup_window_size.
      rewrite popleft_while_compose; [done|lra].
    + by rewrite !after_cleanup_lookup_ne.
Qed.

(** X10.  Queries leave no trace.  Asking [can_send_message] or
    [time_until_next_allowed] about a user only performs a cleanup that any
    later call about that user would perform anyway: a later call whose
    clock readings are not earlier than the query's returns the same value
    and leaves the same limiter object, whether or not the query was
    made. *)
Theorem queries_leave_no_trace clock k w o n :
  o = CanSend k ∨ o = TimeUntil k →
  (clock (reads w) <= clock n)%Q →
  (clock (reads w) <= clock (S n))%Q →
  can_send_message clock k (mkWorld (self (exec clock o w)) n)
  = can_send_message clock k (mkWorld (self w) n) ∧
  record_message clock k (mkWorld (self (exec clock o w)) n)
  = record_message clock k (mkWorld (self w) n) ∧
  time_until_next_allowed clock k (mkWorld (self (exec clock o w)) n)
  = time_until_next_allowed clock k (mkWorld (self w) n).
Proof.
  intros Ho H0 H1.
  assert (self (exec clock o w) = after_cleanup k (clock (reads w)) (self w))
    as ->.
  { destruct Ho as [-> | ->]; simpl.
    - by rewrite can_send_message_run.
    - by rewrite time_until_next_allowed_run. }
  rewrite !can_send_message_run, !record_message_run,
    !time_until_next_allowed_run. cbv zeta. simpl.
  rewrite !after_cleanup_compose by done.
  by rewrite after_cleanup_window_size, after_cleanup_max_requests.
Qed.

Lemma queries_leave_no_trace_witness :
  let w := exec seconds_clock (Record "u") (fresh 10 1) in
  record_message seconds_clock "u"
    (mkWorld (self (exec seconds_clock (CanSend "u") w)) 12)
  = record_message seconds_clock "u" (mkWorld (self w) 12).
Proof.
  intros w.
  destruct (queries_leave_no_trace seconds_clock "u" w (CanSend "u") 12)
    as (_ & H & _).
  - by left.
  - vm_compute. discriminate.
  - vm_compute. discriminate.
  - exact H.
Defined.

(** ** The sliding-window guarantee over a run *)

Lemma popleft_while_split bound d :
  ∃ pre, d = pre ++ popleft_while bound d ∧
         Forall (λ t, (t <= bound)%Q) pre.
Proof.
  induction d as [|t d (pre & Hd & Hpre)]; simpl; [by exists []|].
  destruct (Qle_bool t bound) eqn:E.
  - exists (t :: pre). split; [simpl; by f_equal|].
    constructor; [by apply Qle_bool_iff|done].
  - by exists [].
Qed.

Lemma filter_aged_out ws now l :
  Forall (λ t, (t <= now - inject_Z ws)%Q) l →
  filter (λ t, in_window ws now t = true) l = [].
Proof.
  induction 1 as [|t l Ht _ IH]; [done|].
  rewrite filter_cons_False; [done|].
  unfold in_window, aged_out.
  apply Qle_bool_iff in Ht. by rewrite Ht.
Qed.

Lemma exec_reads clock o w : (reads w ≤ reads (exec clock o w))%nat.
Proof.
  destruct o as [k|k|k]; simpl.
  - rewrite can_send_message_run. simpl. lia.
  - rewrite record_message_run. cbv zeta. destruct (_ <? _); simpl; lia.
  - rewrite time_until_next_allowed_run. simpl. lia.
Qed.

Lemma aged_later clock ws i j old :
  monotone clock → (i ≤ j)%nat →
  Forall (λ s, (s <= clock i - inject_Z ws)%Q) old →
  Forall (λ s, (s <= clock j - inject_Z ws)%Q) old.
Proof.
  intros Hm Hij Hold. pose proof (monotone_le clock i j Hm Hij).
  eapply Forall_impl; [exact Hold|]. simpl. intros s Hs. lra.
Qed.

Lemma history_of_insert ws mr k d (h : gmap string (list Q)) :
  history_of (mkLimiter ws mr (<[k := d]> h)) k = d.
Proof. unfold history_of. simpl. by rewrite lookup_insert_eq. Qed.

(** One call keeps the log and the deque in step: the log is the deque
    preceded by admissions that have aged out. *)
Lemma admission_step clock ws mr k o w log old :
  monotone clock →
  reachable clock ws mr w →
  log.*1 = old ++ history_of (self w) k →
  Forall (λ s, (s <= clock (reads w) - inject_Z ws)%Q) old →
  window_respected ws mr log →
  ∃ old',
    (log ++ admission_of clock k o w).*1
    = old' ++ history_of (self (exec clock o w)) k ∧
    Forall (λ s, (s <= clock (reads (exec clock o w)) - inject_Z ws)%Q) old' ∧
    window_respected ws mr (log ++ admission_of clock k o w).
Proof.
  intros Hm Hr Hlog Hold Hwr.
  destruct (reachable_config _ _ _ _ Hr) as [Hws Hmr].
  destruct (decide (op_key o = k)) as [Hk|Hne].
  2:{ exists old.
      assert (admission_of clock k o w = []) as ->.
      { destruct o as [k'|k'|k']; simpl in *; try done.
        by rewrite decide_False. }
      rewrite app_nil_r. unfold history_of. rewrite exec_lookup_ne by done.
      split_and!; [done| |done].
      eapply aged_later; [done|apply exec_reads|done]. }
  assert (∀ now, ∃ pre,
            log.*1 = (old ++ pre)
                     ++ history_of (after_cleanup k now (self w)) k ∧
            Forall (λ t, (t <= now - inject_Z ws)%Q) pre) as Hsplit.
  { intros now.
    destruct (popleft_while_split (now - inject_Z ws)%Q
                (history_of (self w) k)) as (pre & Hd & Hpre).
    exists pre. split; [|done].
    rewrite history_of_after_cleanup, Hws, <- app_assoc, <- Hd. done. }
  destruct o as [k'|k'|k']; simpl in Hk; subst k'; simpl.
  - rewrite app_nil_r, can_send_message_run. simpl.
    destruct (Hsplit (clock (reads w))) as (pre & Hd & Hpre).
    exists (old ++ pre). split_and!; [done| |done].
    apply Forall_app. split.
    + eapply aged_later; [done| |done]. lia.
    + pose proof (Hm (reads w)). eapply Forall_impl; [exact Hpre|].
      simpl. intros. lra.
  - rewrite decide_True by done. rewrite record_message_run. cbv zeta.
    destruct (Hsplit (clock (S (reads w)))) as (pre & Hd & Hpre).
    pose proof (Hm (reads w)) as Hm0. pose proof (Hm (S (reads w))) as Hm1.
    assert (Forall (λ s, (s <= clock (S (reads w)) - inject_Z ws)%Q)
              (old ++ pre)) as Haged.
    { apply Forall_app. split; [|done].
      eapply aged_later; [done| |done]. lia. }
    destruct (_ <? _) eqn:E; simpl.
    + exists (old ++ pre). split_and!.
      * rewrite fmap_app, Hd. simpl. rewrite history_of_insert.
        by rewrite <- !app_assoc.
      * eapply aged_later; [done| |exact Haged]. lia.
      * apply wr_snoc; [done|]. apply Z.ltb_lt in E.
        unfold admitted_within. rewrite Hd, filter_app.
        rewrite (filter_aged_out _ _ _ Haged). simpl.
        pose proof (length_filter
          (λ t, in_window ws (clock (S (reads w))) t = true)
          (history_of (after_cleanup k (clock (S (reads w))) (self w)) k)).
        lia.
    + rewrite app_nil_r. exists (old ++ pre). split_and!; [done| |done].
      eapply aged_later; [done| |exact Haged]. lia.
  - rewrite app_nil_r, time_until_next_allowed_run. simpl.
    destruct (Hsplit (clock (reads w))) as (pre & Hd & Hpre).
    exists (old ++ pre). split_and!; [done| |done].
    apply Forall_app. split.
    + eapply aged_later; [done| |done]. lia.
    + pose proof (Hm (reads w)). eapply Forall_impl; [exact Hpre|].
      simpl. intros. lra.
Qed.

Lemma admission_log_respected clock ws mr k ops :
  monotone clock →
  ∀ w log old,
    reachable clock ws mr w →
    log.*1 = old ++ history_of (self w) k →
    Forall (λ s, (s <= clock (reads w) - inject_Z ws)%Q) old →
    window_respected ws mr log →
    window_respected ws mr (log ++ admission_log clock k ops w).
Proof.
  intros Hm. induction ops as [|o ops IH]; intros w log old Hr Hlog Hold Hwr.
  - by rewrite app_nil_r.
  - simpl. rewrite app_assoc.
    destruct (admission_step clock ws mr k o w log old Hm Hr Hlog Hold Hwr)
      as (old' & Hlog' & Hold' & Hwr').
    eapply IH; [by apply reach_step|exact Hlog'|exact Hold'|exact Hwr'].
Qed.

Lemma window_respected_split ws mr log :
  window_respected ws mr log →
  ∀ P s c S, log = P ++ (s, c) :: S →
             Z.of_nat (admitted_within ws c P) < mr.
Proof.
  induction 1 as [|log s0 c0 Hwr IH Hc]; intros P s c S Heq.
  - by destruct P.
  - destruct S as [|x S _] using rev_ind.
    + apply app_inj_tail in Heq as [-> [= -> ->]]. done.
    + change (P ++ (s, c) :: S ++ [x]) with (P ++ ((s, c) :: S) ++ [x]) in Heq.
      rewrite app_assoc in Heq. apply app_inj_tail in Heq as [-> _].
      by eapply IH.
Qed.

(** X11.  The sliding-window guarantee.  Run any sequence of public calls on
    a freshly built limiter under a clock that never goes back.  Whenever a
    [record_message] for a user is admitted, fewer than [max_requests] of
    that user's earlier admissions have their stored timestamp within the
    window that ends at the time read by the admission check. *)
Theorem sliding_window_guarantee clock ws mr ops k P s c S :
  monotone clock →
  admission_log clock k ops (fresh ws mr) = P ++ (s, c) :: S →
  Z.of_nat (admitted_within ws c P) < mr.
Proof.
  intros Hm Heq.
  eapply (window_respected_split ws mr); [|exact Heq].
  apply (admission_log_respected clock ws mr k ops Hm (fresh ws mr) [] []).
  - by apply reach_init.
  - done.
  - constructor.
  - constructor.
Qed.

Lemma sliding_window_guarantee_witness :
  Z.of_nat (admitted_within 3 4 [(0, 1)]%Q) < 1.
Proof.
  apply (sliding_window_guarantee seconds_clock 3 1
           [Record "u"; CanSend "u"; Record "u"; Record "u"] "u"
           [(0, 1)]%Q 3%Q 4%Q [(5, 6)]%Q).
  - exact seconds_clock_monotone.
  - reflexivity.
Defined.

(** ** What a call sees after its cleanup *)

(** X12.  Under a clock that never goes back, in every world a limiter can
    reach, the deque a public call works on after its cleanup at time [now]
    is in chronological order and holds only timestamps of the trailing
    window: each one lies in the interval from [now - window_size]
    (excluded) to [now] (included). *)
Theorem cleaned_history_within_window clock ws mr w k i :
  monotone clock →
  reachable clock ws mr w →
  (reads w ≤ i)%nat →
  oldest_first (history_of (after_cleanup k (clock i) (self w)) k) ∧
  Forall (λ t, (clock i - inject_Z ws < t)%Q ∧ (t <= clock i)%Q)
         (history_of (after_cleanup k (clock i) (self w)) k).
Proof.
  intros Hm Hr Hi.
  destruct (reachable_config _ _ _ _ Hr) as [Hws _].
  pose proof (reachable_chronological _ _ _ _ Hm Hr) as Hc.
  assert (oldest_first (history_of (self w) k) ∧
          Forall (λ t, (t <= clock i)%Q) (history_of (self w) k))
    as [Hs Hle].
  { unfold history_of.
    destruct (user_history (self w) !! k) as [d|] eqn:E; simpl.
    - destruct (Hc k d E) as [Hs Hf]. split; [done|].
      pose proof (monotone_le clock _ _ Hm Hi).
      eapply Forall_impl; [exact Hf|]. simpl. intros. lra.
    - split; constructor. }
  rewrite history_of_after_cleanup, Hws.
  split.
  - eapply oldest_first_suffix; [apply popleft_while_suffix|done].
  - rewrite (popleft_while_filter _ _ Hs).
    apply Forall_forall. intros t Ht.
    apply list_elem_of_filter in Ht as [Hout Hin].
    split; [|by apply (proj1 (Forall_forall _ _) Hle)].
    destruct (Qlt_le_dec (clock i - inject_Z ws) t) as [?|Hge]; [done|].
    apply Qle_bool_iff in Hge. congruence.
Qed.

Lemma cleaned_history_within_window_witness :
  let w := exec seconds_clock (Record "u") (fresh 10 2) in
  oldest_first (history_of (after_cleanup "u" (seconds_clock 5) (self w)) "u").
Proof.
  intros w.
  assert (reachable seconds_clock 10 2 w) as Hr.
  { apply reach_step. apply reach_init. reflexivity. }
  destruct (cleaned_history_within_window seconds_clock 10 2 w "u" 5
              seconds_clock_monotone Hr) as [H _].
  - vm_compute. lia.
  - exact H.
Defined.

(** ** The demonstration driver *)

Lemma record_message_ok clock k w :
  ∃ b, record_message clock k w = (Ok b, exec clock (Record k) w).
Proof.
  unfold exec. rewrite record_message_run. cbv zeta.
  destruct (_ <? _); by eexists.
Qed.

Lemma time_until_next_allowed_ok clock k w :
  ∃ v, time_until_next_allowed clock k w
       = (Ok v, exec clock (TimeUntil k) w).
Proof.
  unfold exec. rewrite time_until_next_allowed_run. cbv zeta.
  rewrite after_cleanup_lookup_history.
  destruct (history_of _ k); [by eexists|].
  destruct (_ <? _); by eexists.
Qed.

(** One message of the stream is a [record_message] followed by a
    [time_until_next_allowed] for the same user; neither raises. *)
Lemma send_message_run clock id w :
  ∃ r v,
    record_message clock (stream_key id) w
    = (Ok r, exec clock (Record (stream_key id)) w) ∧
    send_message clock id w
    = (Ok (mkLine id (id `mod` 5 + 1) r v),
       exec clock (TimeUntil (stream_key id))
         (exec clock (Record (stream_key id)) w)).
Proof.
  destruct (record_message_ok clock (stream_key id) w) as [r Hr].
  destruct (time_until_next_allowed_ok clock (stream_key id)
              (exec clock (Record (stream_key id)) w)) as [v Hv].
  exists r, v. split; [done|].
  unfold send_message, mbind, M_bind, mret, M_ret.
  fold (stream_key id). by rewrite Hr, Hv.
Qed.

Lemma message_stream_cons clock id ids w l w' :
  send_message clock id w = (Ok l, w') →
  message_stream clock (id :: ids) w
  = match message_stream clock ids w' with
    | (Ok ls, w'') => (Ok (l :: ls), w'')
    | (Raise e, w'') => (Raise e, w'')
    end.
Proof.
  intros Hs. simpl. unfold mbind, M_bind, mret, M_ret. rewrite Hs.
  by destruct (message_stream clock ids w') as [[ls|e] w''].
Qed.

Lemma record_message_absent clock k w :
  user_history (self w) !! k = None →
  1 ≤ max_requests (self w) →
  fst (record_message clock k w) = Ok true.
Proof.
  intros Hnone Hmr. rewrite record_message_run. cbv zeta.
  rewrite absent_after_cleanup by done.
  unfold history_of. rewrite Hnone. simpl. change (Z.of_nat 0) with 0.
  assert ((0 <? max_requests (self w)) = true) as ->
    by (apply Z.ltb_lt; lia).
  done.
Qed.

(** X13.  In the message stream of the driver, messages sent for users that
    are pairwise different and not yet in the dict are all accepted,
    whatever the clock does, provided the quota is at least one; the stream
    never raises and yields one line per message, in order. *)
Theorem first_messages_accepted clock ids w :
  1 ≤ max_requests (self w) →
  NoDup (stream_key <$> ids) →
  Forall (λ id, user_history (self w) !! stream_key id = None) ids →
  ∃ lines, fst (message_stream clock ids w) = Ok lines ∧
           line_message_id <$> lines = ids ∧
           Forall (λ l, line_result l = true) lines.
Proof.
  revert w. induction ids as [|id ids IH]; intros w Hmr Hnd Hnew.
  - exists []. by split_and!.
  - apply NoDup_cons in Hnd as [Hnotin Hnd].
    apply Forall_cons in Hnew as [Hid Hnew].
    destruct (send_message_run clock id w) as (r & v & Hr & Hsend).
    pose proof (record_message_absent clock _ w Hid Hmr) as Htrue.
    rewrite Hr in Htrue. simpl in Htrue. injection Htrue as ->.
    set (w' := exec clock (TimeUntil (stream_key id))
                 (exec clock (Record (stream_key id)) w)) in *.
    destruct (IH w') as (lines & Hl & Hids & Hres).
    + unfold w'. destruct (exec_config clock (TimeUntil (stream_key id))
        (exec clock (Record (stream_key id)) w)) as [_ ->].
      by destruct (exec_config clock (Record (stream_key id)) w) as [_ ->].
    + done.
    + apply Forall_forall. intros id' Hin.
      assert (stream_key id ≠ stream_key id') as Hne.
      { intros Heq. apply Hnotin. rewrite Heq.
        by apply list_elem_of_fmap_2. }
      unfold w'. rewrite !exec_lookup_ne by done.
      by apply (proj1 (Forall_forall _ _) Hnew).
    + rewrite (message_stream_cons _ _ _ _ _ _ Hsend).
      destruct (message_stream clock ids w') as [[ls|e] w'']; [|done].
      simpl in Hl. injection Hl as ->.
      eexists. split_and!; [done|by simpl; f_equal|by constructor].
Qed.

Lemma first_messages_accepted_witness :
  ∃ lines, fst (message_stream seconds_clock [1; 2; 3] (fresh 10 1))
           = Ok lines ∧
           line_message_id <$> lines = [1; 2; 3] ∧
           Forall (λ l, line_result l = true) lines.
Proof.
  apply (first_messages_accepted seconds_clock [1; 2; 3] (fresh 10 1)).
  - simpl. lia.
  - apply (bool_decide_unpack _). by vm_compute.
  - repeat constructor.
Defined.

Lemma message_stream_ok clock ids :
  ∀ w, ∃ lines w', message_stream clock ids w = (Ok lines, w') ∧
                   length lines = length ids.
Proof.
  induction ids as [|id ids IH]; intros w.
  - by exists [], w.
  - destruct (send_message_run clock id w) as (r & v & _ & Hsend).
    rewrite (message_stream_cons _ _ _ _ _ _ Hsend).
    destruct (IH (exec clock (TimeUntil (stream_key id))
                    (exec clock (Record (stream_key id)) w)))
      as (lines & w' & -> & Hlen).
    eexists _, _. split; [done|]. simpl. by rewrite Hlen.
Qed.

(** A message for a user not yet in the dict, with one message allowed, when
    the window does not run out between the call's clock readings. *)
Lemma send_message_new clock id w :
  user_history (self w) !! stream_key id = None →
  max_requests (self w) = 1 →
  (clock (S (S (reads w))) - inject_Z (window_size (self w))
   < clock (reads w))%Q →
  send_message clock id w
  = (Ok (mkLine id (id `mod` 5 + 1) true
           (reported_wait (window_size (self w)) (clock (reads w))
              (clock (S (S (reads w)))))),
     mkWorld (mkLimiter (window_size (self w)) 1
                (<[stream_key id := [clock (reads w)]]>
                   (user_history (self w))))
             (S (S (S (reads w))))).
Proof.
  intros Hnone Hmr Hfast.
  unfold send_message, mbind, M_bind, mret, M_ret. fold (stream_key id).
  rewrite record_message_run. cbv zeta.
  rewrite absent_after_cleanup by done.
  unfold history_of. rewrite Hnone, Hmr. simpl.
  rewrite time_until_next_allowed_run. cbv zeta. simpl.
  rewrite after_cleanup_unchanged.
  - simpl. rewrite lookup_insert_eq. simpl. done.
  - intros d. simpl. rewrite lookup_insert_eq. intros [= <-].
    split; [done|]. simpl.
    destruct (Qle_bool _ _) eqn:E; [|done].
    apply Qle_bool_iff in E. lra.
Qed.

(** A message for a user whose single recorded timestamp is still within
    the window at both clock readings that matter. *)
Lemma send_message_known clock id w s :
  user_history (self w) !! stream_key id = Some [s] →
  max_requests (self w) = 1 →
  (clock (S (reads w)) - inject_Z (window_size (self w)) < s)%Q →
  (clock (S (S (reads w))) - inject_Z (window_size (self w)) < s)%Q →
  send_message clock id w
  = (Ok (mkLine id (id `mod` 5 + 1) false
           (reported_wait (window_size (self w)) s
              (clock (S (S (reads w)))))),
     mkWorld (self w) (S (S (S (reads w))))).
Proof.
  intros Hs Hmr H1 H2.
  assert (∀ now, (now - inject_Z (window_size (self w)) < s)%Q →
                 after_cleanup (stream_key id) now (self w) = self w) as Hc.
  { intros now Hnow. apply after_cleanup_unchanged. intros d.
    rewrite Hs. intros [= <-]. split; [done|]. simpl.
    destruct (Qle_bool _ _) eqn:E; [|done].
    apply Qle_bool_iff in E. lra. }
  unfold send_message, mbind, M_bind, mret, M_ret. fold (stream_key id).
  rewrite record_message_run. cbv zeta. rewrite (Hc _ H1).
  unfold history_of. rewrite Hs, Hmr. simpl.
  rewrite time_until_next_allowed_run. cbv zeta. simpl.
  rewrite (Hc _ H2), Hs, Hmr. simpl. done.
Qed.

(** X14.  The first stream of the demonstration.  Under a clock that never
    goes back, if the ten messages of the first loop are handled in less
    than the 10-second window, [test_rate_limiter] accepts messages 1 to 5
    (users 2, 3, 4, 5, 1) and refuses messages 6 to 10 (the same users
    again); the wait on each line is the one [time_until_next_allowed]
    computes in float arithmetic from the timestamp stored for the user's
    first message.  The whole run does not raise and ten more lines follow
    for messages 11 to 20. *)
Theorem first_stream_of_demo clock :
  monotone clock →
  (clock 29%nat < clock 0%nat + 10)%Q →
  ∃ second,
    test_rate_limiter clock
    = Ok ([ mkLine 1 2 true (reported_wait 10 (clock 0%nat) (clock 2%nat));
            mkLine 2 3 true (reported_wait 10 (clock 3%nat) (clock 5%nat));
            mkLine 3 4 true (reported_wait 10 (clock 6%nat) (clock 8%nat));
            mkLine 4 5 true (reported_wait 10 (clock 9%nat) (clock 11%nat));
            mkLine 5 1 true (reported_wait 10 (clock 12%nat) (clock 14%nat));
            mkLine 6 2 false (reported_wait 10 (clock 0%nat) (clock 17%nat));
            mkLine 7 3 false (reported_wait 10 (clock 3%nat) (clock 20%nat));
            mkLine 8 4 false (reported_wait 10 (clock 6%nat) (clock 23%nat));
            mkLine 9 5 false (reported_wait 10 (clock 9%nat) (clock 26%nat));
            mkLine 10 1 false
              (reported_wait 10 (clock 12%nat) (clock 29%nat)) ]
          ++ second) ∧
    length second = 10%nat.
Proof.
  intros Hm Hfast.
  assert (∀ i j, (i ≤ 29)%nat →
                 (clock i - inject_Z 10 < clock j)%Q) as Hwin.
  { intros i j Hi.
    pose proof (monotone_le clock i 29 Hm Hi).
    pose proof (monotone_le clock 0 j Hm ltac:(lia)).
    change (inject_Z 10) with 10%Q. lra. }
  assert (∃ w' first,
            message_stream clock [1; 2; 3; 4; 5; 6; 7; 8; 9; 10]
              (fresh 10 1) = (Ok first, w') ∧
            first
            = [ mkLine 1 2 true (reported_wait 10 (clock 0%nat) (clock 2%nat));
                mkLine 2 3 true (reported_wait 10 (clock 3%nat) (clock 5%nat));
                mkLine 3 4 true (reported_wait 10 (clock 6%nat) (clock 8%nat));
                mkLine 4 5 true
                  (reported_wait 10 (clock 9%nat) (clock 11%nat));
                mkLine 5 1 true
                  (reported_wait 10 (clock 12%nat) (clock 14%nat));
                mkLine 6 2 false
                  (reported_wait 10 (clock 0%nat) (clock 17%nat));
                mkLine 7 3 false
                  (reported_wait 10 (clock 3%nat) (clock 20%nat));
                mkLine 8 4 false
                  (reported_wait 10 (clock 6%nat) (clock 23%nat));
                mkLine 9 5 false
                  (reported_wait 10 (clock 9%nat) (clock 26%nat));
                mkLine 10 1 false
                  (reported_wait 10 (clock 12%nat) (clock 29%nat)) ])
    as (w' & first & Hfirst & ->).
  { eexists _, _. split.
    - do 5 (erewrite message_stream_cons;
            [|apply send_message_new;
              [reflexivity|reflexivity|apply Hwin; simpl; lia]]).
      do 5 (erewrite message_stream_cons;
            [|eapply send_message_known;
              [reflexivity|reflexivity
              |apply Hwin; simpl; lia|apply Hwin; simpl; lia]]).
      reflexivity.
    - reflexivity. }
  destruct (message_stream_ok clock (seqZ 11 10) w')
    as (second & w'' & Hsecond & Hlen).
  exists second. split; [|exact Hlen].
  unfold test_rate_limiter, __init__.
  change (seqZ 1 10) with [1; 2; 3; 4; 5; 6; 7; 8; 9; 10].
  unfold mbind at 1, M_bind at 1.
  change (mkWorld (mkLimiter 10 1 ∅) 0) with (fresh 10 1).
  rewrite Hfirst.
  unfold mbind, M_bind, mret, M_ret. by rewrite Hsecond.
Qed.

Lemma first_stream_of_demo_witness :
  let clock := λ n : nat, (inject_Z (Z.of_nat n) / 4)%Q in
  ∃ second,
    test_rate_limiter clock
    = Ok ([ mkLine 1 2 true (reported_wait 10 (clock 0%nat) (clock 2%nat));
            mkLine 2 3 true (reported_wait 10 (clock 3%nat) (clock 5%nat));
            mkLine 3 4 true (reported_wait 10 (clock 6%nat) (clock 8%nat));
            mkLine 4 5 true (reported_wait 10 (clock 9%nat) (clock 11%nat));
            mkLine 5 1 true (reported_wait 10 (clock 12%nat) (clock 14%nat));
            mkLine 6 2 false (reported_wait 10 (clock 0%nat) (clock 17%nat));
            mkLine 7 3 false (reported_wait 10 (clock 3%nat) (clock 20%nat));
            mkLine 8 4 false (reported_wait 10 (clock 6%nat) (clock 23%nat));
            mkLine 9 5 false (reported_wait 10 (clock 9%nat) (clock 26%nat));
            mkLine 10 1 false
              (reported_wait 10 (clock 12%nat) (clock 29%nat)) ]
          ++ second) ∧
    length second = 10%nat.
Proof.
  intros clock.
  apply (first_stream_of_demo clock).
  - intros n. unfold clock, Qle. simpl. lia.
  - vm_compute. reflexivity.
Defined.

(** ** Waiting never hurts *)

Lemma popleft_while_length_mono b1 b2 d :
  (b1 <= b2)%Q →
  (length (popleft_while b2 d) ≤ length (popleft_while b1 d))%nat.
Proof.
  intros Hle. rewrite <- (popleft_while_compose b1 b2 d Hle).
  apply popleft_while_length.
Qed.

(** X15.  Admission is monotone in time.  For one and the same limiter
    state, if [can_send_message] or [record_message] would admit a user at
    some time, it also admits that user at any later time: the passing of
    time alone never turns an admission into a refusal. *)
Theorem admission_monotone_in_time clock k l n1 n2 :
  (clock n1 <= clock n2)%Q →
  (clock (S n1) <= clock (S n2))%Q →
  (fst (can_send_message clock k (mkWorld l n1)) = Ok true →
   fst (can_send_message clock k (mkWorld l n2)) = Ok true) ∧
  (fst (record_message clock k (mkWorld l n1)) = Ok true →
   fst (record_message clock k (mkWorld l n2)) = Ok true).
Proof.
  intros H0 H1.
  rewrite !can_send_message_run, !record_message_run. cbv zeta. simpl.
  rewrite !history_of_after_cleanup.
  pose proof (popleft_while_length_mono
                (clock n1 - inject_Z (window_size l))%Q
                (clock n2 - inject_Z (window_size l))%Q
                (history_of l k) ltac:(lra)) as Hc.
  pose proof (popleft_while_length_mono
                (clock (S n1) - inject_Z (window_size l))%Q
                (clock (S n2) - inject_Z (window_size l))%Q
                (history_of l k) ltac:(lra)) as Hr.
  split.
  - intros [= E]. apply Z.ltb_lt in E. f_equal. apply Z.ltb_lt. lia.
  - destruct (_ <? _) eqn:E; [|done]. intros _. apply Z.ltb_lt in E.
    assert ((Z.of_nat (length (popleft_while
               (clock (S n2) - inject_Z (window_size l))%Q
               (history_of l k))) <? max_requests l) = true) as ->
      by (apply Z.ltb_lt; lia).
    done.
Qed.

Lemma admission_monotone_in_time_witness :
  let l := self (exec seconds_clock (Record "u") (fresh 3 1)) in
  fst (can_send_message seconds_clock "u" (mkWorld l 7)) = Ok true.
Proof.
  intros l.
  destruct (admission_monotone_in_time seconds_clock "u" l 3 7) as [H _].
  - vm_compute. discriminate.
  - vm_compute. discriminate.
  - apply H. reflexivity.
Defined.

